(** * curl-mcp: the [curl] and [parse-json] tools of [src/index.ts]

    A shallow embedding of the two tool handlers registered in
    [src/index.ts], together with the part of the JavaScript host they
    run on: strings as sequences of UTF-16 code units, numbers as IEEE-754
    binary64 values, [JSON.parse] and [JSON.stringify], property access
    with the prototype chain of the intrinsic objects, and the body mixin
    of node-fetch's [Response].

    The file has two parts: the definitions (host first, handlers last),
    then the lemmas and the theorems about the handlers. *)

From Stdlib Require Import Ascii String.
From Stdlib Require Import ZArith NArith QArith Qreduction Qround Qabs Qpower.
From Stdlib Require Import List Bool Lia Sorted.
Import ListNotations.

Open Scope Z_scope.

(* ================================================================== *)
(** * Part I: definitions *)
(* ================================================================== *)

(** ** Strings

    A JavaScript string is a finite sequence of 16-bit code units.  The
    literals of the source are ASCII; [js] turns a Rocq string literal
    into the corresponding code units. *)

Abbreviation code_unit := N (only parsing).
Abbreviation jsstring := (list N) (only parsing).

Definition js (s : string) : jsstring :=
  map N_of_ascii (list_ascii_of_string s).

Fixpoint str_eqb (a b : jsstring) : bool :=
  match a, b with
  | [], [] => true
  | x :: a', y :: b' => (x =? y)%N && str_eqb a' b'
  | _, _ => false
  end.

(** [String.prototype.split] with a one-code-unit separator. *)
Fixpoint split (sep : code_unit) (s : jsstring) : list jsstring :=
  match s with
  | [] => [[]]
  | c :: s' =>
      if (c =? sep)%N then [] :: split sep s'
      else match split sep s' with
           | [] => [[c]]
           | p :: ps => (c :: p) :: ps
           end
  end.

(** [Array.prototype.join] on strings. *)
Fixpoint join (sep : jsstring) (parts : list jsstring) : jsstring :=
  match parts with
  | [] => []
  | [p] => p
  | p :: ps => p ++ sep ++ join sep ps
  end.

(** Decimal digits, most significant first. *)
Fixpoint to_digits_aux (fuel : nat) (n : N) (acc : list N) : list N :=
  match fuel with
  | O => acc
  | S f => if (n <? 10)%N then n :: acc
           else to_digits_aux f (n / 10)%N ((n mod 10)%N :: acc)
  end.

Definition to_digits (n : N) : list N :=
  to_digits_aux (S (N.to_nat (N.log2 n))) n [].

Definition digits_value (ds : list N) : N :=
  fold_left (fun acc d => (acc * 10 + d)%N) ds 0%N.

Definition digit_char (d : N) : code_unit := (48 + d)%N.

Definition is_digit (c : code_unit) : bool := ((48 <=? c) && (c <=? 57))%N.

(** The longest prefix of decimal digits, as digit values, and the rest. *)
Fixpoint span_digits (s : jsstring) : list N * jsstring :=
  match s with
  | [] => ([], [])
  | c :: s' =>
      if is_digit c
      then let '(ds, rest) := span_digits s' in ((c - 48)%N :: ds, rest)
      else ([], s)
  end.

(** ** Numbers

    A Number is an IEEE-754 binary64 value.  [Finite neg m e] stands for
    [(-1)^neg * m * 2^e]; the values the host produces have
    [0 <= m < 2^53] and [-1074 <= e <= 971], with [2^52 <= m] whenever
    [-1074 < e]. *)

Inductive number : Type :=
| NaN
| Infinity (neg : bool)
| Finite (neg : bool) (m e : Z).

Definition canonical (m e : Z) : Prop :=
  0 <= m < 2 ^ 53 /\ -1074 <= e <= 971 /\ (-1074 < e -> 2 ^ 52 <= m).

Definition is_finite (x : number) : bool :=
  match x with
  | Finite _ _ _ => true
  | _ => false
  end.

(** Round to nearest, ties to even, of the quotient [num / den]. *)
Definition round_half_even (num den : Z) : Z :=
  let d := num / den in
  let r := num mod den in
  match 2 * r ?= den with
  | Lt => d
  | Gt => d + 1
  | Eq => if Z.even d then d else d + 1
  end.

(** The binary64 value nearest to the non-negative rational [p / q], as a
    mantissa and an exponent.  The quotient is first expressed in units of
    the least subnormal, [2^-1074]; [shift] is the number of low bits that
    do not fit in the 53-bit mantissa. *)
Definition round_pos (p q : Z) : Z * Z :=
  let P := p * 2 ^ 1074 in
  let shift := Z.max 0 (Z.log2 (P / q) - 52) in
  let m := round_half_even P (q * 2 ^ shift) in
  if m =? 2 ^ 53 then (2 ^ 52, shift + 1 - 1074) else (m, shift - 1074).

Definition round_Q (v : Q) : Z * Z :=
  let r := Qred v in round_pos (Qnum r) (Zpos (Qden r)).

(** The Number value of a non-negative rational with a sign: overflow
    gives an infinity. *)
Definition number_of_Q (neg : bool) (v : Q) : number :=
  let '(m, e) := round_Q v in
  if 971 <? e then Infinity neg else Finite neg m e.

Definition number_of_Z (z : Z) : number :=
  number_of_Q (z <? 0) (inject_Z (Z.abs z)).

Definition exact_Q (m e : Z) : Q := inject_Z m * Qpower 2 e.
Definition decimal_Q (s j : Z) : Q := inject_Z s * Qpower 10 j.

(** The value of a decimal literal with digits [ds] (integer and fraction
    digits together) scaled by [10^j]. *)
Definition number_of_decimal (neg : bool) (ds : list N) (j : Z) : number :=
  number_of_Q neg (decimal_Q (Z.of_N (digits_value ds)) j).

(** *** Number::toString

    ECMA-262 defines the decimal form of a finite non-zero Number [x] by
    integers [n], [k], [s] with [k >= 1], [10^(k-1) <= s < 10^k] (that is,
    [s] has [k] digits), such that the Number value of [s * 10^(n-k)] is
    [x] and [k] is as small as possible; among several [s], the one nearest
    to [x], the even one on a tie.  [shortest] searches [k] upwards; for a
    given [k] the only candidates are the two multiples of [10^(n-k)]
    around [x]. *)

Definition Z_pair_eqb (a b : Z * Z) : bool :=
  (fst a =? fst b) && (snd a =? snd b).

(** The [n] with [10^(n-1) <= v < 10^n], for [v] at least [10^-400]. *)
Definition dec_exponent (v : Q) : Z :=
  Z.of_nat (length (to_digits (Z.to_N (Qfloor (v * Qpower 10 400))))) - 400.

Definition candidates (x : Z * Z) (v : Q) (k n : Z) : list (Z * Z) :=
  let lo := Qfloor (v / Qpower 10 (n - k)) in
  map (fun s => (s, n))
    (filter (fun s => (0 <? s)
                      && (Z.of_nat (length (to_digits (Z.to_N s))) =? k)
                      && Z_pair_eqb (round_Q (decimal_Q s (n - k))) x)
            [lo; lo + 1]).

Definition closer (v : Q) (k : Z) (a b : Z * Z) : Z * Z :=
  let da := Qabs (decimal_Q (fst a) (snd a - k) - v) in
  let db := Qabs (decimal_Q (fst b) (snd b - k) - v) in
  match (da ?= db)%Q with
  | Lt => a
  | Gt => b
  | Eq => if Z.even (fst a) then a else b
  end.

Definition best (v : Q) (k : Z) (cs : list (Z * Z)) : option (Z * Z) :=
  match cs with
  | [] => None
  | c :: cs' => Some (fold_left (closer v k) cs' c)
  end.

Fixpoint shortest (fuel : nat) (x : Z * Z) (v : Q) (n0 k : Z)
  : option (Z * Z) :=
  match fuel with
  | O => None
  | S f =>
      match best v k (candidates x v k n0 ++ candidates x v k (n0 + 1)) with
      | Some c => Some c
      | None => shortest f x v n0 (k + 1)
      end
  end.

(** The exact decimal expansion [s * 10^j] of [m * 2^e]. *)
Definition exact_digits (m e : Z) : Z * Z :=
  if 0 <=? e then (m * 2 ^ e, 0) else (m * 5 ^ (- e), e).

(** The digits of [s] and the exponent [n] of Number::toString.  Seventeen
    significant digits identify any binary64 value, so the search does not
    fail on a Number of the host; the exact expansion keeps the function
    total. *)
Definition digits_of (m e : Z) : list N * Z :=
  let v := exact_Q m e in
  match shortest 17 (m, e) v (dec_exponent v) 1 with
  | Some (s, n) => (to_digits (Z.to_N s), n)
  | None =>
      let '(s, j) := exact_digits m e in
      let ds := to_digits (Z.to_N s) in
      (ds, Z.of_nat (length ds) + j)
  end.

(** Steps 6 to 10 of Number::toString: the notation chosen from [n] and
    the number of digits. *)
Definition format_decimal (ds : list N) (n : Z) : jsstring :=
  let k := Z.of_nat (length ds) in
  let cs := map digit_char ds in
  if (k <=? n) && (n <=? 21) then
    cs ++ repeat 48%N (Z.to_nat (n - k))
  else if (0 <? n) && (n <=? 21) then
    firstn (Z.to_nat n) cs ++ [46%N] ++ skipn (Z.to_nat n) cs
  else if (-6 <? n) && (n <=? 0) then
    [48%N; 46%N] ++ repeat 48%N (Z.to_nat (- n)) ++ cs
  else
    let e := n - 1 in
    let exponent :=
      [101%N; if e <? 0 then 45%N else 43%N]
      ++ map digit_char (to_digits (Z.to_N (Z.abs e))) in
    match cs with
    | [] => exponent
    | [c] => c :: exponent
    | c :: rest => c :: 46%N :: rest ++ exponent
    end.

Definition number_to_string (x : number) : jsstring :=
  match x with
  | NaN => js "NaN"
  | Infinity neg => (if neg then js "-" else []) ++ js "Infinity"
  | Finite neg m e =>
      if m =? 0 then js "0"
      else let '(ds, n) := digits_of m e in
           (if neg then js "-" else []) ++ format_decimal ds n
  end.

(** *** Numeric literals of JSON

    An optional minus sign, an integer part without leading zero, an
    optional fraction (a dot and at least one digit) and an optional
    exponent (e or E, an optional sign, at least one digit), read by
    longest match; the value is rounded to the nearest Number. *)

Definition lex_fraction (s : jsstring) : option (list N * jsstring) :=
  match s with
  | c :: s' =>
      if (c =? 46)%N then
        match span_digits s' with
        | ([], _) => None
        | (ds, rest) => Some (ds, rest)
        end
      else Some ([], s)
  | [] => Some ([], s)
  end.

Definition lex_exponent (s : jsstring) : option (Z * jsstring) :=
  match s with
  | c :: s' =>
      if (c =? 101)%N || (c =? 69)%N then
        let '(neg, s'') :=
          match s' with
          | c' :: t => if (c' =? 45)%N then (true, t)
                       else if (c' =? 43)%N then (false, t)
                       else (false, s')
          | [] => (false, s')
          end in
        match span_digits s'' with
        | ([], _) => None
        | (ds, rest) =>
            let v := Z.of_N (digits_value ds) in
            Some (if neg then - v else v, rest)
        end
      else Some (0, s)
  | [] => Some (0, s)
  end.

(** The literal after its sign. *)
Definition lex_magnitude (neg : bool) (s : jsstring)
  : option (number * jsstring) :=
  match span_digits s with
  | ([], _) => None
  | (d :: ds, s1) =>
      if (d =? 0)%N && negb (match ds with [] => true | _ => false end)
      then None
      else
        match lex_fraction s1 with
        | None => None
        | Some (fs, s2) =>
            match lex_exponent s2 with
            | None => None
            | Some (ex, s3) =>
                Some (number_of_decimal neg ((d :: ds) ++ fs)
                        (ex - Z.of_nat (length fs)), s3)
            end
        end
  end.

Definition lex_number (s : jsstring) : option (number * jsstring) :=
  match s with
  | c :: t => if (c =? 45)%N then lex_magnitude true t
              else lex_magnitude false s
  | [] => None
  end.

(** ** Errors and completions

    What a [catch] clause of the handlers observes of a thrown value:
    whether it is an [Error] instance, its [message], and otherwise the
    result of [String(error)]. *)

Inductive thrown : Type :=
| ErrorInstance (name message : jsstring)
| OtherThrown (as_string : jsstring).

Inductive completion (A : Type) : Type :=
| Normal (a : A)
| Throw (e : thrown).

Arguments Normal {A} a.
Arguments Throw {A} e.

(** ** Values

    The values a handler can hold: the primitives, arrays and plain
    objects (what [JSON.parse] builds), and the intrinsic objects of the
    realm that property access reaches through the prototype chain.  The
    properties of a plain object are kept in the order of
    OrdinaryOwnPropertyKeys: array indices in ascending order, then the
    other keys in order of creation. *)

Inductive builtin : Type :=
| ObjectPrototype
| FunctionPrototype
| ArrayPrototype
| StringPrototype
| NumberPrototype
| BooleanPrototype
| BuiltinFunction (id : jsstring).

Unset Elimination Schemes.

Inductive value : Type :=
| VUndefined
| VNull
| VBool (b : bool)
| VNumber (x : number)
| VString (s : jsstring)
| VArray (elements : list value)
| VObject (properties : list (jsstring * value))
| VBuiltin (b : builtin).

Set Elimination Schemes.

(** The canonical numeric strings that are array indices: the decimal
    form, without leading zero, of an integer below [2^32 - 1]. *)
Definition array_index (k : jsstring) : option N :=
  match span_digits k with
  | (d :: ds, []) =>
      if (d =? 0)%N && negb (match ds with [] => true | _ => false end)
      then None
      else let n := digits_value (d :: ds) in
           if (n <? 4294967295)%N then Some n else None
  | _ => None
  end.

Fixpoint lookup {A : Type} (k : jsstring) (ps : list (jsstring * A))
  : option A :=
  match ps with
  | [] => None
  | (k', a) :: ps' => if str_eqb k' k then Some a else lookup k ps'
  end.

(** Whether a property with key [k'] is enumerated before one with key
    [k] created later. *)
Definition comes_before (k' k : jsstring) : bool :=
  match array_index k', array_index k with
  | Some a, Some b => (a <? b)%N
  | Some _, None => true
  | None, Some _ => false
  | None, None => true
  end.

Fixpoint replace_property {A : Type} (k : jsstring) (a : A)
  (ps : list (jsstring * A)) : list (jsstring * A) :=
  match ps with
  | [] => []
  | (k', a') :: ps' =>
      if str_eqb k' k then (k', a) :: ps'
      else (k', a') :: replace_property k a ps'
  end.

Fixpoint insert_property {A : Type} (k : jsstring) (a : A)
  (ps : list (jsstring * A)) : list (jsstring * A) :=
  match ps with
  | [] => [(k, a)]
  | (k', a') :: ps' =>
      if comes_before k' k then (k', a') :: insert_property k a ps'
      else (k, a) :: ps
  end.

(** CreateDataProperty on a plain object: an existing property keeps its
    place and takes the new value, a new one is placed in key order. *)
Definition define_property {A : Type} (k : jsstring) (a : A)
  (ps : list (jsstring * A)) : list (jsstring * A) :=
  match lookup k ps with
  | Some _ => replace_property k a ps
  | None => insert_property k a ps
  end.

(** [Object.fromEntries]. *)
Definition fromEntries {A : Type} (entries : list (jsstring * A))
  : list (jsstring * A) :=
  fold_left (fun ps '(k, a) => define_property k a ps) entries [].

(** ** JSON.stringify *)

Definition hex_char (d : N) : code_unit :=
  if (d <? 10)%N then (48 + d)%N else (87 + d)%N.

Definition unicode_escape (c : code_unit) : jsstring :=
  [92; 117; hex_char (c / 4096 mod 16); hex_char (c / 256 mod 16);
   hex_char (c / 16 mod 16); hex_char (c mod 16)]%N.

Definition is_high_surrogate (c : code_unit) : bool :=
  ((55296 <=? c) && (c <=? 56319))%N.
Definition is_low_surrogate (c : code_unit) : bool :=
  ((56320 <=? c) && (c <=? 57343))%N.

(** The escapes of QuoteJSONString: the two-character escapes, [\uXXXX]
    for the other control characters and for surrogates that are not part
    of a pair. *)
Fixpoint quote_body (s : jsstring) : jsstring :=
  match s with
  | [] => []
  | c :: s' =>
      if (c =? 8)%N then js "\b" ++ quote_body s'
      else if (c =? 9)%N then js "\t" ++ quote_body s'
      else if (c =? 10)%N then js "\n" ++ quote_body s'
      else if (c =? 12)%N then js "\f" ++ quote_body s'
      else if (c =? 13)%N then js "\r" ++ quote_body s'
      else if (c =? 34)%N then [92; 34]%N ++ quote_body s'
      else if (c =? 92)%N then [92; 92]%N ++ quote_body s'
      else if (c <? 32)%N then unicode_escape c ++ quote_body s'
      else if is_high_surrogate c then
        match s' with
        | d :: s'' =>
            if is_low_surrogate d then c :: d :: quote_body s''
            else unicode_escape c ++ quote_body s'
        | [] => unicode_escape c
        end
      else if is_low_surrogate c then unicode_escape c ++ quote_body s'
      else c :: quote_body s'
  end.

Definition QuoteJSONString (s : jsstring) : jsstring :=
  [34%N] ++ quote_body s ++ [34%N].

Definition is_empty {A : Type} (l : list A) : bool :=
  match l with
  | [] => true
  | _ => false
  end.

(** The brackets around the serialized members of an array or an object,
    with [gap] and the current [indent]. *)
Definition wrap (open close : code_unit) (gap indent : jsstring)
  (partial : list jsstring) : jsstring :=
  if is_empty partial then [open; close]
  else if is_empty gap then [open] ++ join [44%N] partial ++ [close]
  else
    let inner := indent ++ gap in
    [open; 10%N] ++ inner ++ join ([44; 10]%N ++ inner) partial
    ++ [10%N] ++ indent ++ [close].

(** SerializeJSONProperty; [None] is the [undefined] that
    [JSON.stringify] answers for [undefined] and for functions.  No
    intrinsic object of ECMA-262 reachable here has a [toJSON] method or an
    enumerable property; the wrapper prototypes serialize as their
    primitive value. *)
Fixpoint serialize (gap indent : jsstring) (v : value) {struct v}
  : option jsstring :=
  match v with
  | VUndefined => None
  | VNull => Some (js "null")
  | VBool b => Some (if b then js "true" else js "false")
  | VNumber x =>
      Some (if is_finite x then number_to_string x else js "null")
  | VString s => Some (QuoteJSONString s)
  | VArray es =>
      Some (wrap 91%N 93%N gap indent
              (map (fun e => match serialize gap (indent ++ gap) e with
                             | Some t => t
                             | None => js "null"
                             end) es))
  | VObject ps =>
      Some (wrap 123%N 125%N gap indent
              ((fix members (ps : list (jsstring * value)) : list jsstring :=
                  match ps with
                  | [] => []
                  | (k, x) :: ps' =>
                      match serialize gap (indent ++ gap) x with
                      | Some t =>
                          (QuoteJSONString k ++ [58%N]
                           ++ (if is_empty gap then [] else [32%N]) ++ t)
                          :: members ps'
                      | None => members ps'
                      end
                  end) ps))
  | VBuiltin ObjectPrototype => Some (js "{}")
  | VBuiltin ArrayPrototype => Some (js "[]")
  | VBuiltin StringPrototype => Some (QuoteJSONString [])
  | VBuiltin NumberPrototype => Some (js "0")
  | VBuiltin BooleanPrototype => Some (js "false")
  | VBuiltin FunctionPrototype => None
  | VBuiltin (BuiltinFunction _) => None
  end.

(** [JSON.stringify(value, null, space)] for a numeric [space]; [space]
    is [0] when the argument is omitted. *)
Definition JSON_stringify (v : value) (space : nat) : option jsstring :=
  serialize (repeat 32%N (Nat.min space 10)) [] v.

(** ** JSON.parse

    The text is cut into tokens, and the tokens are read by a push-down
    automaton whose stack holds the arrays and objects under
    construction. *)

Inductive token : Type :=
| TLBrace | TRBrace | TLBracket | TRBracket | TColon | TComma
| TString (s : jsstring)
| TNumber (x : number)
| TTrue | TFalse | TNull.

Definition is_ws (c : code_unit) : bool :=
  ((c =? 32) || (c =? 9) || (c =? 10) || (c =? 13))%N.

Definition hex_value (c : code_unit) : option N :=
  if ((48 <=? c) && (c <=? 57))%N then Some (c - 48)%N
  else if ((97 <=? c) && (c <=? 102))%N then Some (c - 87)%N
  else if ((65 <=? c) && (c <=? 70))%N then Some (c - 55)%N
  else None.

Definition hex4 (a b c d : code_unit) : option code_unit :=
  match hex_value a, hex_value b, hex_value c, hex_value d with
  | Some x, Some y, Some z, Some w =>
      Some (x * 4096 + y * 256 + z * 16 + w)%N
  | _, _, _, _ => None
  end.

Definition escape_char (e : code_unit) : option code_unit :=
  if (e =? 34)%N then Some 34%N
  else if (e =? 92)%N then Some 92%N
  else if (e =? 47)%N then Some 47%N
  else if (e =? 98)%N then Some 8%N
  else if (e =? 102)%N then Some 12%N
  else if (e =? 110)%N then Some 10%N
  else if (e =? 114)%N then Some 13%N
  else if (e =? 116)%N then Some 9%N
  else None.

Definition prepend (c : code_unit) (r : option (jsstring * jsstring))
  : option (jsstring * jsstring) :=
  match r with
  | Some (t, rest) => Some (c :: t, rest)
  | None => None
  end.

(** The characters of a string literal after its opening quote, up to the
    closing quote. *)
Fixpoint lex_string (s : jsstring) : option (jsstring * jsstring) :=
  match s with
  | [] => None
  | c :: s1 =>
      if (c =? 34)%N then Some ([], s1)
      else if (c =? 92)%N then
        match s1 with
        | [] => None
        | e :: s2 =>
            if (e =? 117)%N then
              match s2 with
              | h1 :: h2 :: h3 :: h4 :: s3 =>
                  match hex4 h1 h2 h3 h4 with
                  | Some u => prepend u (lex_string s3)
                  | None => None
                  end
              | _ => None
              end
            else
              match escape_char e with
              | Some u => prepend u (lex_string s2)
              | None => None
              end
        end
      else if (c <? 32)%N then None
      else prepend c (lex_string s1)
  end.

Fixpoint strip_prefix (p s : jsstring) : option jsstring :=
  match p, s with
  | [], _ => Some s
  | a :: p', b :: s' => if (a =? b)%N then strip_prefix p' s' else None
  | _ :: _, [] => None
  end.

Definition push (t : token) (r : option (list token)) : option (list token) :=
  match r with
  | Some ts => Some (t :: ts)
  | None => None
  end.

(** The first token of a text and, through [continue], the tokens of what
    follows it. *)
Definition lex_step (continue : jsstring -> option (list token))
  (s : jsstring) : option (list token) :=
  match s with
  | [] => Some []
  | c :: rest =>
      if is_ws c then continue rest
      else if (c =? 123)%N then push TLBrace (continue rest)
      else if (c =? 125)%N then push TRBrace (continue rest)
      else if (c =? 91)%N then push TLBracket (continue rest)
      else if (c =? 93)%N then push TRBracket (continue rest)
      else if (c =? 58)%N then push TColon (continue rest)
      else if (c =? 44)%N then push TComma (continue rest)
      else if (c =? 34)%N then
        match lex_string rest with
        | Some (str, rest') => push (TString str) (continue rest')
        | None => None
        end
      else if (c =? 45)%N || is_digit c then
        match lex_number s with
        | Some (x, rest') => push (TNumber x) (continue rest')
        | None => None
        end
      else
        match strip_prefix (js "true") s with
        | Some rest' => push TTrue (continue rest')
        | None =>
            match strip_prefix (js "false") s with
            | Some rest' => push TFalse (continue rest')
            | None =>
                match strip_prefix (js "null") s with
                | Some rest' => push TNull (continue rest')
                | None => None
                end
            end
        end
  end.

(** The tokens of a text; every token takes at least one code unit, so a
    [fuel] above the length of the text is never exhausted. *)
Fixpoint lex (fuel : nat) (s : jsstring) : option (list token) :=
  match fuel with
  | O => None
  | S f => lex_step (lex f) s
  end.

Definition JSON_lex (s : jsstring) : option (list token) :=
  lex (S (length s)) s.

(** An array or an object under construction: the elements read so far,
    last first; the properties defined so far and the key whose value is
    being read. *)
Inductive frame : Type :=
| InArray (done : list value)
| InObject (done : list (jsstring * value)) (key : jsstring).

Inductive parser_state : Type :=
| ExpectValue (stack : list frame)
| ArrayStart (stack : list frame)
| ObjectStart (stack : list frame)
| ExpectKey (done : list (jsstring * value)) (stack : list frame)
| ExpectColon (done : list (jsstring * value)) (key : jsstring)
    (stack : list frame)
| AfterValue (v : value) (stack : list frame).

Definition begin_value (stack : list frame) (t : token)
  : option parser_state :=
  match t with
  | TNull => Some (AfterValue VNull stack)
  | TTrue => Some (AfterValue (VBool true) stack)
  | TFalse => Some (AfterValue (VBool false) stack)
  | TNumber x => Some (AfterValue (VNumber x) stack)
  | TString s => Some (AfterValue (VString s) stack)
  | TLBracket => Some (ArrayStart stack)
  | TLBrace => Some (ObjectStart stack)
  | _ => None
  end.

Definition step (st : parser_state) (t : token) : option parser_state :=
  match st with
  | ExpectValue stack => begin_value stack t
  | ArrayStart stack =>
      match t with
      | TRBracket => Some (AfterValue (VArray []) stack)
      | _ => begin_value (InArray [] :: stack) t
      end
  | ObjectStart stack =>
      match t with
      | TRBrace => Some (AfterValue (VObject []) stack)
      | TString k => Some (ExpectColon [] k stack)
      | _ => None
      end
  | ExpectKey done stack =>
      match t with
      | TString k => Some (ExpectColon done k stack)
      | _ => None
      end
  | ExpectColon done k stack =>
      match t with
      | TColon => Some (ExpectValue (InObject done k :: stack))
      | _ => None
      end
  | AfterValue v [] => None
  | AfterValue v (InArray done :: stack) =>
      match t with
      | TComma => Some (ExpectValue (InArray (v :: done) :: stack))
      | TRBracket => Some (AfterValue (VArray (rev (v :: done))) stack)
      | _ => None
      end
  | AfterValue v (InObject done k :: stack) =>
      match t with
      | TComma => Some (ExpectKey (define_property k v done) stack)
      | TRBrace =>
          Some (AfterValue (VObject (define_property k v done)) stack)
      | _ => None
      end
  end.

Fixpoint run (st : parser_state) (ts : list token) : option parser_state :=
  match ts with
  | [] => Some st
  | t :: ts' =>
      match step st t with
      | Some st' => run st' ts'
      | None => None
      end
  end.

Definition parse_tokens (ts : list token) : option value :=
  match run (ExpectValue []) ts with
  | Some (AfterValue v []) => Some v
  | _ => None
  end.

(** [JSON.parse(text)] without reviver; [None] stands for the SyntaxError
    thrown on a text that is not JSON. *)
Definition JSON_parse (text : jsstring) : option value :=
  match JSON_lex text with
  | Some ts => parse_tokens ts
  | None => None
  end.

(** ** Deep equality

    Numbers are compared as [===] compares them (the two zeros are equal,
    NaN differs from itself), arrays element by element, objects by their
    keys, whatever the order. *)

Definition number_eqb (x y : number) : bool :=
  match x, y with
  | Finite s m e, Finite s' m' e' =>
      ((m =? 0) && (m' =? 0))
      || (Bool.eqb s s' && (m =? m') && (e =? e'))
  | Infinity s, Infinity s' => Bool.eqb s s'
  | _, _ => false
  end.

Definition builtin_eqb (a b : builtin) : bool :=
  match a, b with
  | ObjectPrototype, ObjectPrototype => true
  | FunctionPrototype, FunctionPrototype => true
  | ArrayPrototype, ArrayPrototype => true
  | StringPrototype, StringPrototype => true
  | NumberPrototype, NumberPrototype => true
  | BooleanPrototype, BooleanPrototype => true
  | BuiltinFunction i, BuiltinFunction j => str_eqb i j
  | _, _ => false
  end.

Fixpoint deep_equal (v w : value) {struct v} : bool :=
  match v, w with
  | VUndefined, VUndefined => true
  | VNull, VNull => true
  | VBool a, VBool b => Bool.eqb a b
  | VNumber x, VNumber y => number_eqb x y
  | VString s, VString t => str_eqb s t
  | VArray es, VArray fs =>
      (fix all2 (es fs : list value) : bool :=
         match es, fs with
         | [], [] => true
         | e :: es', f :: fs' => deep_equal e f && all2 es' fs'
         | _, _ => false
         end) es fs
  | VObject ps, VObject qs =>
      (length ps =? length qs)%nat
      && (fix all (ps : list (jsstring * value)) : bool :=
            match ps with
            | [] => true
            | (k, x) :: ps' =>
                match lookup k qs with
                | Some y => deep_equal x y
                | None => false
                end && all ps'
            end) ps
  | VBuiltin a, VBuiltin b => builtin_eqb a b
  | _, _ => false
  end.

(** Whether every number inside a value is finite. *)
Fixpoint all_finite (v : value) : bool :=
  match v with
  | VNumber x => is_finite x
  | VArray es => forallb all_finite es
  | VObject ps => forallb (fun p => all_finite (snd p)) ps
  | _ => true
  end.

(** ** The host: realm, messages

    What the engine decides and ECMA-262 leaves open, or what is too large
    to list: the string-keyed properties of the intrinsic objects, the
    source text that [Function.prototype.toString] gives a built-in
    function, and the wording of the errors.  The handlers are
    parameterised by it. *)

Inductive property : Type :=
| Data (v : value)
| Accessor (getter : value -> completion value).

Record Host : Type := {
  intrinsic_property : builtin -> jsstring -> option property;
  function_source : builtin -> jsstring;
  syntax_error_message : jsstring -> jsstring;
  nullish_access_message : value -> jsstring -> jsstring
}.

Definition errorMessage (error : thrown) : jsstring :=
  match error with
  | ErrorInstance _ message => message
  | OtherThrown as_string => as_string
  end.

Definition bind {A B : Type} (c : completion A) (k : A -> completion B)
  : completion B :=
  match c with
  | Normal a => k a
  | Throw e => Throw e
  end.

Definition try_catch {A : Type} (block : completion A)
  (handler : thrown -> completion A) : completion A :=
  match block with
  | Normal a => Normal a
  | Throw e => handler e
  end.

Notation "x <- c ;; k" := (bind c (fun x => k))
  (at level 61, c at next level, right associativity).

(** [JSON.parse] as a computation that may throw. *)
Definition JSON_parse_or_throw (host : Host) (text : jsstring)
  : completion value :=
  match JSON_parse text with
  | Some v => Normal v
  | None =>
      Throw (ErrorInstance (js "SyntaxError") (syntax_error_message host text))
  end.

(** ** Property access, [typeof], [String] *)

(** The [[Prototype]] of an intrinsic object. *)
Definition parent (b : builtin) : option builtin :=
  match b with
  | ObjectPrototype => None
  | BuiltinFunction _ => Some FunctionPrototype
  | _ => Some ObjectPrototype
  end.

(** OrdinaryGet along the prototype chain, starting at the intrinsic
    object [b]; an accessor is called with the [receiver].  The chains of
    the realm have at most three objects. *)
Fixpoint chain_get (depth : nat) (host : Host) (receiver : value)
  (key : jsstring) (b : option builtin) : completion value :=
  match depth, b with
  | S d, Some o =>
      match intrinsic_property host o key with
      | Some (Data v) => Normal v
      | Some (Accessor getter) => getter receiver
      | None => chain_get d host receiver key (parent o)
      end
  | _, _ => Normal VUndefined
  end.

Definition is_nullish (v : value) : bool :=
  match v with
  | VNull | VUndefined => true
  | _ => false
  end.

(** The own property [key] of a value that is not an intrinsic object:
    the properties of a plain object, the [length] and the elements of an
    array, the [length] and the code units of a string. *)
Definition own_property (v : value) (key : jsstring) : option value :=
  match v with
  | VObject ps => lookup key ps
  | VArray es =>
      if str_eqb key (js "length")
      then Some (VNumber (number_of_Z (Z.of_nat (length es))))
      else match array_index key with
           | Some i => nth_error es (N.to_nat i)
           | None => None
           end
  | VString s =>
      if str_eqb key (js "length")
      then Some (VNumber (number_of_Z (Z.of_nat (length s))))
      else match array_index key with
           | Some i => match nth_error s (N.to_nat i) with
                       | Some c => Some (VString [c])
                       | None => None
                       end
           | None => None
           end
  | _ => None
  end.

(** The intrinsic object at which the lookup of an inherited property
    starts; for an intrinsic object, that object itself. *)
Definition chain_start (v : value) : option builtin :=
  match v with
  | VObject _ => Some ObjectPrototype
  | VArray _ => Some ArrayPrototype
  | VString _ => Some StringPrototype
  | VNumber _ => Some NumberPrototype
  | VBool _ => Some BooleanPrototype
  | VBuiltin b => Some b
  | VUndefined | VNull => None
  end.

(** [v[key]] for a string [key]: a TypeError on [null] and [undefined],
    otherwise the own property, otherwise the prototype chain. *)
Definition Get (host : Host) (v : value) (key : jsstring) : completion value :=
  if is_nullish v
  then Throw (ErrorInstance (js "TypeError")
                (nullish_access_message host v key))
  else
    match own_property v key with
    | Some x => Normal x
    | None => chain_get 3 host v key (chain_start v)
    end.

Definition typeof (v : value) : jsstring :=
  match v with
  | VUndefined => js "undefined"
  | VNull => js "object"
  | VBool _ => js "boolean"
  | VNumber _ => js "number"
  | VString _ => js "string"
  | VArray _ => js "object"
  | VObject _ => js "object"
  | VBuiltin FunctionPrototype => js "function"
  | VBuiltin (BuiltinFunction _) => js "function"
  | VBuiltin _ => js "object"
  end.

(** [String(v)] for a value that is not an object; the handlers convert
    objects with [JSON.stringify] only, and [None] marks them here. *)
Definition String_ (host : Host) (v : value) : option jsstring :=
  match v with
  | VUndefined => Some (js "undefined")
  | VNull => Some (js "null")
  | VBool b => Some (if b then js "true" else js "false")
  | VNumber x => Some (number_to_string x)
  | VString s => Some s
  | VBuiltin FunctionPrototype => Some (function_source host FunctionPrototype)
  | VBuiltin (BuiltinFunction id) =>
      Some (function_source host (BuiltinFunction id))
  | _ => None
  end.

(** ** The result of a tool call

    [{ content: [{ type: "text", text }], isError }]; [text] is [None]
    when the expression that computes it is [undefined]. *)

Record ToolResult : Type := {
  isError : bool;
  text : option jsstring
}.

Definition success (t : option jsstring) : ToolResult :=
  {| isError := false; text := t |}.
Definition failure (message : jsstring) : ToolResult :=
  {| isError := true; text := Some message |}.

(** ** The [parse-json] tool (index.ts, lines 118 to 174) *)

(** The loop of lines 135 to 138. *)
Fixpoint traverse (host : Host) (result : value) (parts : list jsstring)
  : completion value :=
  match parts with
  | [] => Normal result
  | part :: parts' =>
      if is_nullish result then Normal result
      else next <- Get host result part ;; traverse host next parts'
  end.

(** [if (path)]: a path that is absent or empty is skipped. *)
Definition truthy (path : option jsstring) : bool :=
  match path with
  | Some (_ :: _) => true
  | _ => false
  end.

Definition path_text (path : option jsstring) : jsstring :=
  match path with
  | Some p => p
  | None => js "undefined"
  end.

(** Lines 130 to 151: the value selected by [path], or the thrown value
    that reaches the inner [catch]. *)
Definition extract (host : Host) (data : value) (path : option jsstring)
  : completion value :=
  if truthy path then traverse host data (split 46%N (path_text path))
  else Normal data.

(** Line 157. *)
Definition result_text (host : Host) (result : value) : option jsstring :=
  if str_eqb (typeof result) (js "object") then JSON_stringify result 2
  else String_ host result.

(** The result of the inner [catch], lines 139 to 150. *)
Definition extraction_failure (path : option jsstring) (e : thrown)
  : ToolResult :=
  failure (js "Error extracting data with path " ++ [34%N]
           ++ path_text path ++ [34%N] ++ js ": " ++ errorMessage e).

Definition parse_json_tool (host : Host) (json : jsstring)
  (path : option jsstring) : completion ToolResult :=
  try_catch
    (data <- JSON_parse_or_throw host json ;;
     match extract host data path with
     | Throw e => Normal (extraction_failure path e)
     | Normal result => Normal (success (result_text host result))
     end)
    (fun error =>
       Normal (failure (js "Error parsing JSON: " ++ errorMessage error))).

(** ** The [curl] tool (index.ts, lines 32 to 115) *)

Inductive HttpMethod : Type := GET | POST | PUT | DELETE | PATCH.

Definition method_name (m : HttpMethod) : jsstring :=
  match m with
  | GET => js "GET"
  | POST => js "POST"
  | PUT => js "PUT"
  | DELETE => js "DELETE"
  | PATCH => js "PATCH"
  end.

Definition is_GET (m : HttpMethod) : bool :=
  match m with
  | GET => true
  | _ => false
  end.

(** The arguments of the handler after validation by the schema:
    [headers] is [None] and [body] is [VUndefined] when they are
    omitted. *)
Module CurlRequest.
Record t : Type := {
  url : jsstring;
  method : HttpMethod;
  headers : option (list (jsstring * jsstring));
  body : value;
  timeout : Z
}.
End CurlRequest.

(** The options passed to [fetch]; [body] is [None] when the property is
    not set. *)
Module RequestInit.
Record t : Type := {
  method : HttpMethod;
  headers : list (jsstring * jsstring);
  timeout : Z;
  body : option jsstring
}.
End RequestInit.

(** What the transport answers: the status line, the header entries in
    the order [headers.entries()] yields them, and the outcome of reading
    the body stream to its end as text. *)
Module Response.
Record t : Type := {
  url : jsstring;
  status : Z;
  statusText : jsstring;
  headers : list (jsstring * jsstring);
  body : completion jsstring
}.
End Response.

Module CurlResponse.
Record t : Type := {
  status : Z;
  statusText : jsstring;
  headers : list (jsstring * jsstring);
  data : option jsstring
}.
End CurlResponse.

Definition default_headers : list (jsstring * jsstring) :=
  [(js "Content-Type", js "application/json");
   (js "Accept", js "application/json")].

(** Lines 57 to 69. *)
Definition options (req : CurlRequest.t) : RequestInit.t :=
  {| RequestInit.method := CurlRequest.method req;
     RequestInit.headers :=
       match CurlRequest.headers req with
       | Some h => h
       | None => default_headers
       end;
     RequestInit.timeout := CurlRequest.timeout req;
     RequestInit.body :=
       if negb (is_GET (CurlRequest.method req))
          && negb (match CurlRequest.body req with
                   | VUndefined => true
                   | _ => false
                   end)
       then match CurlRequest.body req with
            | VString s => Some s
            | b => JSON_stringify b 0
            end
       else None |}.

(** *** The body of a node-fetch response

    [json()] and [text()] both go through [consumeBody], which rejects
    with a TypeError when the body has been read before and marks it as
    read otherwise.  A computation on a response threads that mark. *)

Definition Body (A : Type) : Type := bool -> completion A * bool.

Definition consumeBody (response : Response.t) : Body jsstring :=
  fun disturbed =>
    if disturbed
    then (Throw (ErrorInstance (js "TypeError")
                   (js "body used already for: " ++ Response.url response)),
          true)
    else (Response.body response, true).

Definition Response_json (host : Host) (response : Response.t) : Body value :=
  fun disturbed =>
    let '(buffer, disturbed') := consumeBody response disturbed in
    (match buffer with
     | Normal t =>
         match JSON_parse t with
         | Some v => Normal v
         | None =>
             Throw (ErrorInstance (js "FetchError")
                      (js "invalid json response body at "
                       ++ Response.url response ++ js " reason: "
                       ++ syntax_error_message host t))
         end
     | Throw e => Throw e
     end, disturbed').

Definition Response_text (response : Response.t) : Body jsstring :=
  consumeBody response.

(** Lines 74 to 83: the text for [data], or what the fallback throws. *)
Definition read_body (host : Host) (response : Response.t)
  : completion (option jsstring) :=
  let '(parsed, disturbed) := Response_json host response false in
  match parsed with
  | Normal responseData => Normal (JSON_stringify responseData 2)
  | Throw _ =>
      let '(raw, _) := Response_text response disturbed in
      responseText <- raw ;; Normal (Some responseText)
  end.

(** The object literal of lines 86 to 91 as a value. *)
Definition CurlResponse_value (result : CurlResponse.t) : value :=
  VObject
    [(js "status", VNumber (number_of_Z (CurlResponse.status result)));
     (js "statusText", VString (CurlResponse.statusText result));
     (js "headers",
      VObject (map (fun '(k, v) => (k, VString v))
                 (CurlResponse.headers result)));
     (js "data", match CurlResponse.data result with
                 | Some t => VString t
                 | None => VUndefined
                 end)].

(** Lines 86 to 91. *)
Definition envelope (response : Response.t) (responseText : option jsstring)
  : CurlResponse.t :=
  {| CurlResponse.status := Response.status response;
     CurlResponse.statusText := Response.statusText response;
     CurlResponse.headers := fromEntries (Response.headers response);
     CurlResponse.data := responseText |}.

(** Lines 73 to 100: from the response to the result. *)
Definition respond (host : Host) (response : Response.t)
  : completion ToolResult :=
  responseText <- read_body host response ;;
  Normal (success (JSON_stringify
                     (CurlResponse_value (envelope response responseText)) 2)).

(** The arguments of the one call to [fetch], line 71. *)
Definition outbound (req : CurlRequest.t) : jsstring * RequestInit.t :=
  (CurlRequest.url req, options req).

(** The handler.  [fetch] is the transport: it resolves with a response
    or rejects.  The result comes with the lines written to the log. *)
Definition curl_tool (host : Host)
  (fetch : jsstring -> RequestInit.t -> completion Response.t)
  (req : CurlRequest.t) : list jsstring * completion ToolResult :=
  let started :=
    js "Making " ++ method_name (CurlRequest.method req)
    ++ js " request to " ++ CurlRequest.url req in
  match (response <- fetch (fst (outbound req)) (snd (outbound req)) ;;
         respond host response) with
  | Normal result => ([started], Normal result)
  | Throw error =>
      let message := errorMessage error in
      ([started; js "Error making request: " ++ message],
       Normal (failure (js "Error making request: " ++ message)))
  end.

(** ** A host for the examples

    The entries of the realm that the examples below read, as ECMA-262
    gives them: the [constructor] of the prototypes, the [__proto__]
    accessor of [Object.prototype], and the [caller] and [arguments]
    accessors of [Function.prototype], whose getter is [%ThrowTypeError%].
    The messages are worded as V8 words them; every syntax error is
    reported under one wording. *)

Definition prototype_of (v : value) : value :=
  match v with
  | VObject _ => VBuiltin ObjectPrototype
  | VArray _ => VBuiltin ArrayPrototype
  | VString _ => VBuiltin StringPrototype
  | VNumber _ => VBuiltin NumberPrototype
  | VBool _ => VBuiltin BooleanPrototype
  | VBuiltin b =>
      match parent b with
      | Some o => VBuiltin o
      | None => VNull
      end
  | VUndefined | VNull => VUndefined
  end.

Definition poison_pill : jsstring :=
  js "'caller', 'callee', and 'arguments' properties may not be accessed on strict mode functions or the arguments objects for calls to them".

Definition restricted : property :=
  Accessor (fun _ => Throw (ErrorInstance (js "TypeError") poison_pill)).

Definition constructor_of (b : builtin) : option jsstring :=
  match b with
  | ObjectPrototype => Some (js "Object")
  | FunctionPrototype => Some (js "Function")
  | ArrayPrototype => Some (js "Array")
  | StringPrototype => Some (js "String")
  | NumberPrototype => Some (js "Number")
  | BooleanPrototype => Some (js "Boolean")
  | BuiltinFunction _ => None
  end.

Definition example_property (b : builtin) (key : jsstring) : option property :=
  if str_eqb key (js "constructor") then
    match constructor_of b with
    | Some id => Some (Data (VBuiltin (BuiltinFunction id)))
    | None => None
    end
  else
    match b with
    | ObjectPrototype =>
        if str_eqb key (js "__proto__")
        then Some (Accessor (fun receiver => Normal (prototype_of receiver)))
        else None
    | FunctionPrototype =>
        if str_eqb key (js "caller") || str_eqb key (js "arguments")
        then Some restricted
        else None
    | BuiltinFunction id =>
        if str_eqb key (js "name") then Some (Data (VString id)) else None
    | _ => None
    end.

Definition example_host : Host :=
  {| intrinsic_property := example_property;
     function_source := fun b =>
       js "function "
       ++ match b with BuiltinFunction id => id | _ => [] end
       ++ js "() { [native code] }";
     syntax_error_message := fun _ => js "Unexpected token in JSON";
     nullish_access_message := fun v key =>
       js "Cannot read properties of "
       ++ match v with VNull => js "null" | _ => js "undefined" end
       ++ js " (reading '" ++ key ++ js "')" |}.

(** A JSON text written with an apostrophe for each double quote. *)
Definition json_text (s : string) : jsstring :=
  map (fun c => if (c =? 39)%N then 34%N else c) (js s).

(** ** Inputs of the examples *)

Definition plain_request (m : HttpMethod) (b : value) : CurlRequest.t :=
  {| CurlRequest.url := js "http://example.com/";
     CurlRequest.method := m;
     CurlRequest.headers := None;
     CurlRequest.body := b;
     CurlRequest.timeout := 10000 |}.

Definition example_response (status : Z) (statusText : string)
  (body : jsstring) : Response.t :=
  {| Response.url := js "http://example.com/";
     Response.status := status;
     Response.statusText := js statusText;
     Response.headers := [(js "content-type", js "text/plain")];
     Response.body := Normal body |}.

(** A transport that resolves with a given response, and one that
    rejects. *)
Definition answer (response : Response.t)
  : jsstring -> RequestInit.t -> completion Response.t :=
  fun _ _ => Normal response.

Definition refuse (error : thrown)
  : jsstring -> RequestInit.t -> completion Response.t :=
  fun _ _ => Throw error.

(** The document {"a":{"b":42}} of the specification's examples. *)
Definition sample_text : jsstring := json_text "{'a':{'b':42}}".

Definition sample_value : value :=
  VObject [(js "a", VObject [(js "b", VNumber (number_of_Z 42))])].

Definition request_with_headers : CurlRequest.t :=
  {| CurlRequest.url := js "http://example.com/";
     CurlRequest.method := GET;
     CurlRequest.headers := Some [(js "X-Token", js "t")];
     CurlRequest.body := VUndefined;
     CurlRequest.timeout := 10000 |}.

(** ** Definitions of the proofs

    What the lemmas of the second part are stated with: the invariants of
    the values that [JSON.parse] builds, the tokens a value is printed as,
    and the value read back from them. *)

(** Digit values. *)
Definition all_digits (ds : list N) : Prop := Forall (fun d => (d < 10)%N) ds.

(** A text does not continue a run of digits. *)
Definition no_digit_ahead (rest : jsstring) : Prop :=
  match rest with
  | [] => True
  | c :: _ => is_digit c = false
  end.

(** The text after a numeric literal does not extend it. *)
Definition number_end (rest : jsstring) : bool :=
  match rest with
  | [] => true
  | c :: _ => negb (is_digit c || (c =? 46) || (c =? 101) || (c =? 69))%N
  end.

(** The exponent part of the decimal form of a Number. *)
Definition exponent_text (e : Z) : jsstring :=
  [101%N; if e <? 0 then 45%N else 43%N]
  ++ map digit_char (to_digits (Z.to_N (Z.abs e))).

(** The number read back from its decimal form: the sign of a zero is not
    printed. *)
Definition unsigned_zero (x : number) : number :=
  match x with
  | Finite neg m e => if m =? 0 then Finite false m e else x
  | _ => x
  end.

(** The Numbers the host produces. *)
Definition number_ok (x : number) : Prop :=
  match x with
  | Finite _ m e => canonical m e
  | _ => True
  end.

(** The order of the keys of a plain object: no key twice, and each key
    enumerated before the keys that follow it. *)
Definition key_order (p q : jsstring * value) : Prop :=
  fst p <> fst q /\ comes_before (fst p) (fst q) = true.

Definition keys (ps : list (jsstring * value)) : list jsstring := map fst ps.

(** The values [JSON.parse] builds: no [undefined], no intrinsic object,
    Numbers of the host, properties in key order. *)
Fixpoint well_formed (v : value) : Prop :=
  match v with
  | VUndefined => False
  | VBuiltin _ => False
  | VNull => True
  | VBool _ => True
  | VString _ => True
  | VNumber x => number_ok x
  | VArray es =>
      (fix all (es : list value) : Prop :=
         match es with
         | [] => True
         | e :: es' => well_formed e /\ all es'
         end) es
  | VObject ps =>
      StronglySorted key_order ps
      /\ (fix all (ps : list (jsstring * value)) : Prop :=
            match ps with
            | [] => True
            | p :: ps' => well_formed (snd p) /\ all ps'
            end) ps
  end.

(** The tokens of the members of an array or an object, with the commas
    between them. *)
Definition sep_concat (tss : list (list token)) : list token :=
  match tss with
  | [] => []
  | ts :: tss' => ts ++ flat_map (cons TComma) tss'
  end.

(** The tokens of the text of a value.  A number that is not finite is
    printed as [null], and a zero without its sign. *)
Fixpoint tokens_of (v : value) : list token :=
  match v with
  | VNull => [TNull]
  | VBool true => [TTrue]
  | VBool false => [TFalse]
  | VNumber x => if is_finite x then [TNumber (unsigned_zero x)] else [TNull]
  | VString s => [TString s]
  | VArray es => TLBracket :: sep_concat (map tokens_of es) ++ [TRBracket]
  | VObject ps =>
      TLBrace
      :: sep_concat
           (map (fun p => TString (fst p) :: TColon :: tokens_of (snd p)) ps)
      ++ [TRBrace]
  | VUndefined => []
  | VBuiltin _ => []
  end.

(** The value that the text of a value is parsed to. *)
Fixpoint reparsed (v : value) : value :=
  match v with
  | VNumber x => if is_finite x then VNumber (unsigned_zero x) else VNull
  | VArray es => VArray (map reparsed es)
  | VObject ps =>
      VObject (fromEntries (map (fun p => (fst p, reparsed (snd p))) ps))
  | _ => v
  end.

Definition all_ws (s : jsstring) : Prop := Forall (fun c => is_ws c = true) s.

Definition add_tokens (ts : list token) (r : option (list token))
  : option (list token) :=
  match r with
  | Some ts' => Some (ts ++ ts')
  | None => None
  end.

(** The text [t], followed by anything that does not extend a number, is
    cut into the tokens [ts] and the tokens of what follows. *)
Definition lexes_as (t : jsstring) (ts : list token) : Prop :=
  forall rest, number_end rest = true ->
    JSON_lex (t ++ rest) = add_tokens ts (JSON_lex rest).

(** The automaton reads the tokens of [v] as the value [reparsed v]. *)
Definition parses (v : value) : Prop :=
  forall stack rest,
    run (ExpectValue stack) (tokens_of v ++ rest)
    = run (AfterValue (reparsed v) stack) rest.

Definition member (p : jsstring * value) : jsstring * value :=
  (fst p, reparsed (snd p)).

Definition define (done : list (jsstring * value)) (p : jsstring * value)
  : list (jsstring * value) :=
  let '(k, a) := p in define_property k a done.

Definition token_ok (t : token) : Prop :=
  match t with
  | TNumber x => number_ok x
  | _ => True
  end.

Definition frame_ok (f : frame) : Prop :=
  match f with
  | InArray done => Forall well_formed done
  | InObject done _ => well_formed (VObject done)
  end.

Definition state_ok (st : parser_state) : Prop :=
  match st with
  | ExpectValue stack => Forall frame_ok stack
  | ArrayStart stack => Forall frame_ok stack
  | ObjectStart stack => Forall frame_ok stack
  | ExpectKey done stack => well_formed (VObject done) /\ Forall frame_ok stack
  | ExpectColon done _ stack =>
      well_formed (VObject done) /\ Forall frame_ok stack
  | AfterValue v stack => well_formed v /\ Forall frame_ok stack
  end.

(** The value reached from [v] along [parts] through own properties
    only: the members of the document itself. *)
Fixpoint own_path (v : value) (parts : list jsstring) : option value :=
  match parts with
  | [] => Some v
  | part :: parts' =>
      match own_property v part with
      | Some x => own_path x parts'
      | None => None
      end
  end.

(** The decimal form of a natural number, as [String(n)] gives it. *)
Definition decimal (n : N) : jsstring := map digit_char (to_digits n).

(* ================================================================== *)
(** * Part II: lemmas and theorems *)
(* ================================================================== *)

(** ** Digits *)

Lemma digits_value_acc (ds : list N) (a : N) :
  fold_left (fun acc d => (acc * 10 + d)%N) ds a
  = (a * 10 ^ N.of_nat (length ds) + digits_value ds)%N.
Proof.
  unfold digits_value. revert a.
  induction ds as [|d ds IH]; intros a.
  - simpl. lia.
  - cbn [fold_left]. rewrite IH, (IH (0 * 10 + d)%N).
    replace (N.of_nat (length (d :: ds))) with (N.succ (N.of_nat (length ds)))
      by (simpl length; lia).
    rewrite N.pow_succ_r'. lia.
Qed.

Lemma digits_value_cons (d : N) (ds : list N) :
  digits_value (d :: ds)
  = (d * 10 ^ N.of_nat (length ds) + digits_value ds)%N.
Proof.
  unfold digits_value at 1. simpl fold_left. now rewrite digits_value_acc.
Qed.

Lemma digits_value_app (a b : list N) :
  digits_value (a ++ b)
  = (digits_value a * 10 ^ N.of_nat (length b) + digits_value b)%N.
Proof.
  unfold digits_value at 1. rewrite fold_left_app.
  now rewrite digits_value_acc.
Qed.

Lemma digits_value_zeros (j : nat) (ds : list N) :
  digits_value (repeat 0%N j ++ ds) = digits_value ds.
Proof.
  induction j as [|j IH]; simpl; [reflexivity|].
  rewrite digits_value_cons, IH. lia.
Qed.

Lemma digits_value_repeat_zero (j : nat) : digits_value (repeat 0%N j) = 0%N.
Proof.
  rewrite <- (app_nil_r (repeat 0%N j)), digits_value_zeros. reflexivity.
Qed.

Lemma to_digits_aux_spec (fuel : nat) :
  forall n acc, (n < 2 ^ N.of_nat fuel)%N -> all_digits acc ->
    all_digits (to_digits_aux fuel n acc)
    /\ digits_value (to_digits_aux fuel n acc)
       = (n * 10 ^ N.of_nat (length acc) + digits_value acc)%N
    /\ ((0 < n)%N ->
        exists d ds, to_digits_aux fuel n acc = d :: ds /\ (0 < d)%N).
Proof.
  induction fuel as [|fuel IH]; intros n acc Hn Hacc.
  - simpl in Hn. assert (n = 0%N) by lia. subst n. simpl.
    split; [assumption | split; intros; lia].
  - simpl to_digits_aux. destruct (N.ltb_spec n 10) as [Hlt | Hge].
    + split; [|split].
      * constructor; assumption.
      * apply digits_value_cons.
      * intros Hpos. now exists n, acc.
    + assert (Hq : (n / 10 < 2 ^ N.of_nat fuel)%N).
      { apply N.Div0.div_lt_upper_bound.
        replace (N.of_nat (S fuel)) with (N.succ (N.of_nat fuel)) in Hn by lia.
        rewrite N.pow_succ_r' in Hn. lia. }
      assert (Hr : all_digits ((n mod 10)%N :: acc)).
      { constructor; [apply N.mod_lt; lia | assumption]. }
      destruct (IH (n / 10)%N ((n mod 10)%N :: acc) Hq Hr) as (H1 & H2 & H3).
      split; [|split].
      * exact H1.
      * rewrite H2, digits_value_cons.
        replace (N.of_nat (length ((n mod 10)%N :: acc)))
          with (N.succ (N.of_nat (length acc))) by (simpl length; lia).
        rewrite N.pow_succ_r'.
        pose proof (N.div_mod n 10 ltac:(lia)) as E.
        rewrite E at 3. lia.
      * intros _. apply H3.
        pose proof (N.div_mod n 10 ltac:(lia)).
        pose proof (N.mod_lt n 10 ltac:(lia)). lia.
Qed.

Lemma to_digits_fuel (n : N) : (n < 2 ^ N.of_nat (S (N.to_nat (N.log2 n))))%N.
Proof.
  replace (N.of_nat (S (N.to_nat (N.log2 n)))) with (N.succ (N.log2 n)) by lia.
  destruct (N.eq_dec n 0) as [-> | Hn]; [reflexivity|].
  apply N.log2_spec. lia.
Qed.

Lemma to_digits_all (n : N) : all_digits (to_digits n).
Proof.
  apply (to_digits_aux_spec _ n [] (to_digits_fuel n)). constructor.
Qed.

Lemma to_digits_value (n : N) : digits_value (to_digits n) = n.
Proof.
  destruct (to_digits_aux_spec _ n [] (to_digits_fuel n)) as (_ & H & _);
    [constructor|].
  unfold to_digits. rewrite H. simpl. unfold digits_value. simpl. lia.
Qed.

Lemma to_digits_head (n : N) :
  (0 < n)%N -> exists d ds, to_digits n = d :: ds /\ (0 < d)%N.
Proof.
  intros Hn.
  destruct (to_digits_aux_spec _ n [] (to_digits_fuel n)) as (_ & _ & H);
    [constructor|].
  exact (H Hn).
Qed.

Lemma to_digits_nonempty (n : N) : to_digits n <> [].
Proof.
  unfold to_digits. simpl. destruct (n <? 10)%N; [discriminate|].
  generalize (N.to_nat (N.log2 n)) (n / 10)%N (n mod 10)%N.
  intros f. assert (G : forall a acc, acc <> [] -> to_digits_aux f a acc <> []).
  { induction f as [|f IH]; intros a acc Hacc; simpl; [assumption|].
    destruct (a <? 10)%N; [discriminate|]. apply IH. discriminate. }
  intros a d. apply G. discriminate.
Qed.

Lemma is_digit_char (d : N) : (d < 10)%N -> is_digit (digit_char d) = true.
Proof.
  intros H. unfold is_digit, digit_char.
  apply andb_true_intro; split; apply N.leb_le; lia.
Qed.

Lemma span_digits_chars (ds : list N) (rest : jsstring) :
  all_digits ds -> no_digit_ahead rest ->
  span_digits (map digit_char ds ++ rest) = (ds, rest).
Proof.
  intros Hds Hrest. induction Hds as [|d ds Hd _ IH]; simpl.
  - destruct rest as [|c rest]; [reflexivity|]. simpl in Hrest.
    simpl. now rewrite Hrest.
  - rewrite (is_digit_char d Hd), IH. f_equal. f_equal.
    unfold digit_char. lia.
Qed.

(** ** Rounding *)

Lemma round_half_even_bounds (num den : Z) :
  0 < den ->
  num / den <= round_half_even num den <= num / den + 1.
Proof.
  intros Hden. unfold round_half_even.
  destruct (2 * (num mod den) ?= den); [destruct (Z.even _)| |]; lia.
Qed.

Lemma round_half_even_exact (m den : Z) :
  0 < den -> round_half_even (m * den) den = m.
Proof.
  intros Hden. unfold round_half_even.
  rewrite Z.div_mul, Z.mod_mul by lia.
  destruct (2 * 0 ?= den) eqn:E; try reflexivity.
  - apply Z.compare_eq in E. lia.
  - apply Z.compare_gt_iff in E. lia.
Qed.

Lemma round_pos_canonical (p q : Z) :
  0 <= p -> 0 < q ->
  snd (round_pos p q) <= 971 ->
  canonical (fst (round_pos p q)) (snd (round_pos p q)).
Proof.
  intros Hp Hq. unfold round_pos.
  set (P := p * 2 ^ 1074).
  assert (HP : 0 <= P) by (unfold P; apply Z.mul_nonneg_nonneg; lia).
  set (t := P / q).
  assert (Ht : 0 <= t) by (apply Z.div_pos; lia).
  set (shift := Z.max 0 (Z.log2 t - 52)).
  assert (Hs : 0 <= shift) by lia.
  set (D := q * 2 ^ shift).
  assert (H2s : 0 < 2 ^ shift) by (apply Z.pow_pos_nonneg; lia).
  assert (HD : 0 < D) by (unfold D; apply Z.mul_pos_pos; lia).
  pose proof (round_half_even_bounds P D HD) as Hm.
  assert (HPD : P / D = t / 2 ^ shift).
  { unfold D, t. rewrite Z.div_div by lia. reflexivity. }
  assert (Hup : P / D < 2 ^ 53).
  { rewrite HPD. apply Z.div_lt_upper_bound; [lia|].
    destruct (Z.eq_dec t 0) as [E | E]; [rewrite E; lia|].
    pose proof (Z.log2_spec t ltac:(lia)) as [_ L].
    rewrite <- Z.pow_add_r by lia.
    eapply Z.lt_le_trans; [exact L|].
    apply Z.pow_le_mono_r; lia. }
  assert (Hlo : 0 < shift -> 2 ^ 52 <= P / D).
  { intros Hpos. rewrite HPD. apply Z.div_le_lower_bound; [lia|].
    assert (E : t <> 0).
    { intros E. unfold shift in Hpos. rewrite E in Hpos. simpl in Hpos. lia. }
    pose proof (Z.log2_spec t ltac:(lia)) as [L _].
    rewrite <- Z.pow_add_r by lia.
    eapply Z.le_trans; [|exact L].
    apply Z.pow_le_mono_r; lia. }
  assert (H0 : 0 <= P / D) by (apply Z.div_pos; lia).
  destruct (Z.eqb_spec (round_half_even P D) (2 ^ 53)) as [E | E];
    cbn [fst snd]; intros He; unfold canonical.
  - split; [|split]; lia.
  - split; [|split]; lia.
Qed.

Lemma round_pos_exact (p q m e : Z) :
  0 < q -> canonical m e ->
  p * 2 ^ 1074 = m * 2 ^ (e + 1074) * q ->
  round_pos p q = (m, e).
Proof.
  intros Hq (Hm & He & Hn) E. unfold round_pos. rewrite E.
  set (s := e + 1074). assert (Hs : 0 <= s) by lia.
  rewrite Z.div_mul by lia.
  assert (Hshift : Z.max 0 (Z.log2 (m * 2 ^ s) - 52) = s).
  { destruct (Z.eq_dec m 0) as [-> | Hm0].
    - simpl. assert (2 ^ 52 <= 0 -> False) by lia.
      destruct (Z.eq_dec s 0); [lia|]. exfalso. apply H. apply Hn. lia.
    - rewrite Z.log2_mul_pow2 by lia.
      destruct (Z.eq_dec s 0) as [-> | Hs0].
      + assert (Z.log2 m < 53) by (apply Z.log2_lt_pow2; lia). lia.
      + assert (2 ^ 52 <= m) by (apply Hn; lia).
        assert (Z.log2 m < 53) by (apply Z.log2_lt_pow2; lia).
        assert (52 <= Z.log2 m) by (apply Z.log2_le_pow2; lia). lia. }
  rewrite Hshift.
  assert (H2s : 0 < 2 ^ s) by (apply Z.pow_pos_nonneg; lia).
  replace (m * 2 ^ s * q) with (m * (q * 2 ^ s)) by ring.
  rewrite round_half_even_exact by (apply Z.mul_pos_pos; lia).
  destruct (Z.eqb_spec m (2 ^ 53)); [lia|]. f_equal. unfold s. lia.
Qed.

Lemma round_Q_ext (v w : Q) : v == w -> round_Q v = round_Q w.
Proof.
  intros E. unfold round_Q. now rewrite (Qred_complete v w E).
Qed.

Lemma Qpower_2_nonneg (n : Z) : 0 <= n -> Qpower 2 n == inject_Z (2 ^ n).
Proof.
  intros Hn. symmetry. apply (Zpower_Qpower 2 n Hn).
Qed.

Lemma round_Q_exact (m e : Z) :
  canonical m e -> round_Q (exact_Q m e) = (m, e).
Proof.
  intros Hc. unfold round_Q.
  pose proof (Qred_correct (exact_Q m e)) as E.
  set (r := Qred (exact_Q m e)) in *.
  apply round_pos_exact; [reflexivity | exact Hc |].
  destruct Hc as (Hm & He & _).
  assert (F : r * inject_Z (2 ^ 1074) == inject_Z (m * 2 ^ (e + 1074))).
  { rewrite E. unfold exact_Q.
    rewrite inject_Z_mult, <- (Qpower_2_nonneg (e + 1074)) by lia.
    rewrite <- (Qpower_2_nonneg 1074) by lia.
    rewrite (Qpower_plus 2 e 1074) by discriminate. ring. }
  unfold Qeq in F. simpl in F. rewrite Z.mul_1_r in F.
  destruct r as [rn rd]. simpl in *. lia.
Qed.

(** ** The digits chosen by Number::toString *)

Lemma closer_either (v : Q) (k : Z) (a b : Z * Z) :
  closer v k a b = a \/ closer v k a b = b.
Proof.
  unfold closer.
  destruct (_ ?= _)%Q; [destruct (Z.even _)| |]; auto.
Qed.

Lemma fold_closer_In (v : Q) (k : Z) (cs : list (Z * Z)) :
  forall c, In (fold_left (closer v k) cs c) (c :: cs).
Proof.
  induction cs as [|c' cs IH]; intros c; simpl.
  - now left.
  - destruct (closer_either v k c c') as [E | E]; rewrite E.
    + destruct (IH c) as [H | H]; [now left | right; now right].
    + right. apply IH.
Qed.

Lemma best_In (v : Q) (k : Z) (cs : list (Z * Z)) (c : Z * Z) :
  best v k cs = Some c -> In c cs.
Proof.
  destruct cs as [|c0 cs]; simpl; [discriminate|].
  intros [= <-]. apply fold_closer_In.
Qed.

Lemma candidates_spec (x : Z * Z) (v : Q) (k n' s n : Z) :
  In (s, n) (candidates x v k n') ->
  0 < s /\ Z.of_nat (length (to_digits (Z.to_N s))) = k
  /\ round_Q (decimal_Q s (n - k)) = x.
Proof.
  unfold candidates. rewrite in_map_iff. intros (s' & [= -> ->] & H).
  apply filter_In in H. destruct H as [_ H].
  apply andb_prop in H. destruct H as [H H3].
  apply andb_prop in H. destruct H as [H1 H2].
  apply Z.ltb_lt in H1. apply Z.eqb_eq in H2.
  unfold Z_pair_eqb in H3. apply andb_prop in H3. destruct H3 as [Ha Hb].
  apply Z.eqb_eq in Ha. apply Z.eqb_eq in Hb.
  split; [assumption | split; [assumption|]].
  destruct (round_Q _), x. simpl in *. congruence.
Qed.

Lemma shortest_spec (fuel : nat) (x : Z * Z) (v : Q) (n0 : Z) :
  forall k s n, shortest fuel x v n0 k = Some (s, n) ->
    0 < s
    /\ round_Q (decimal_Q s (n - Z.of_nat (length (to_digits (Z.to_N s))))) = x.
Proof.
  induction fuel as [|fuel IH]; intros k s n; simpl; [discriminate|].
  destruct (best v k _) as [c|] eqn:E.
  - intros [= ->]. apply best_In in E. apply in_app_or in E.
    destruct E as [E | E]; apply candidates_spec in E;
      destruct E as (H1 & H2 & H3); rewrite H2; auto.
  - apply IH.
Qed.

Lemma Qpower_nonneg_Z (a n : Z) : 0 <= n -> inject_Z a ^ n == inject_Z (a ^ n).
Proof. intros H. symmetry. now apply Zpower_Qpower. Qed.

Lemma exact_digits_value (m e : Z) :
  decimal_Q (fst (exact_digits m e)) (snd (exact_digits m e)) == exact_Q m e.
Proof.
  unfold exact_digits, decimal_Q, exact_Q.
  destruct (Z.leb_spec 0 e) as [He | He]; cbn [fst snd].
  - rewrite inject_Z_mult, <- (Qpower_nonneg_Z 2 e He).
    change (inject_Z 2) with 2%Q. change (10 ^ 0)%Q with 1%Q.
    generalize (2 ^ e)%Q. intros t. ring.
  - rewrite inject_Z_mult, <- (Qpower_nonneg_Z 5 (- e)) by lia.
    assert (E10 : (10 ^ e == 2 ^ e * 5 ^ e)%Q).
    { rewrite <- Qmult_power. reflexivity. }
    rewrite E10.
    assert (E5 : (inject_Z 5 ^ (- e) * 5 ^ e == 1)%Q).
    { change (inject_Z 5) with 5%Q.
      rewrite <- Qpower_plus by discriminate.
      replace (- e + e) with 0 by lia. reflexivity. }
    revert E5. generalize (inject_Z 5 ^ (- e))%Q (5 ^ e)%Q (2 ^ e)%Q.
    intros a b c E5.
    transitivity (inject_Z m * c * (a * b))%Q; [ring | rewrite E5; ring].
Qed.

Lemma exact_digits_pos (m e : Z) : 0 < m -> 0 < fst (exact_digits m e).
Proof.
  intros Hm. unfold exact_digits.
  destruct (Z.leb_spec 0 e); cbn [fst];
    apply Z.mul_pos_pos; try assumption; apply Z.pow_pos_nonneg; lia.
Qed.

(** The digits start with a non-zero digit and denote a decimal that
    rounds to the number. *)
Lemma digits_of_spec (m e : Z) :
  canonical m e -> 0 < m ->
  let ds := fst (digits_of m e) in
  let n := snd (digits_of m e) in
  all_digits ds
  /\ (exists d ds', ds = d :: ds' /\ (0 < d)%N)
  /\ round_Q (decimal_Q (Z.of_N (digits_value ds)) (n - Z.of_nat (length ds)))
     = (m, e).
Proof.
  intros Hc Hm. unfold digits_of.
  destruct (shortest 17 (m, e) _ _ 1) as [[s n]|] eqn:E; cbn [fst snd].
  - apply shortest_spec in E. destruct E as [Hs Hr].
    split; [apply to_digits_all | split].
    + apply to_digits_head. lia.
    + rewrite to_digits_value, Z2N.id by lia. exact Hr.
  - pose proof (exact_digits_value m e) as Hv.
    pose proof (exact_digits_pos m e Hm) as Hs.
    destruct (exact_digits m e) as [s j]. cbn [fst snd] in *.
    split; [apply to_digits_all | split].
    + apply to_digits_head. lia.
    + rewrite to_digits_value, Z2N.id by lia.
      replace (Z.of_nat (length (to_digits (Z.to_N s))) + j
               - Z.of_nat (length (to_digits (Z.to_N s)))) with j by lia.
      rewrite (round_Q_ext _ _ Hv). now apply round_Q_exact.
Qed.

(** ** Reading back a printed number *)

Lemma number_end_no_digit (rest : jsstring) :
  number_end rest = true -> no_digit_ahead rest.
Proof.
  destruct rest as [|c rest]; simpl; [trivial|].
  destruct (is_digit c); simpl; [discriminate | reflexivity].
Qed.

Lemma lex_fraction_end (rest : jsstring) :
  number_end rest = true -> lex_fraction rest = Some ([], rest).
Proof.
  destruct rest as [|c rest]; simpl; [reflexivity|].
  destruct (c =? 46)%N; [|reflexivity].
  rewrite orb_true_r. discriminate.
Qed.

Lemma lex_exponent_end (rest : jsstring) :
  number_end rest = true -> lex_exponent rest = Some (0, rest).
Proof.
  destruct rest as [|c rest]; simpl; [reflexivity|].
  destruct (c =? 101)%N, (c =? 69)%N; simpl;
    rewrite ?orb_true_r; try discriminate; reflexivity.
Qed.

Lemma span_digits_stop (ds : list N) (c : code_unit) (rest : jsstring) :
  all_digits ds -> is_digit c = false ->
  span_digits (map digit_char ds ++ c :: rest) = (ds, c :: rest).
Proof.
  intros Hds Hc. apply span_digits_chars; [assumption | exact Hc].
Qed.

Lemma lex_exponent_text (e : Z) (rest : jsstring) :
  no_digit_ahead rest ->
  lex_exponent (exponent_text e ++ rest) = Some (e, rest).
Proof.
  intros Hrest. unfold exponent_text, lex_exponent.
  cbn [app]. cbn [N.eqb Pos.eqb orb].
  assert (Hsp : span_digits
                  (map digit_char (to_digits (Z.to_N (Z.abs e))) ++ rest)
                = (to_digits (Z.to_N (Z.abs e)), rest)).
  { apply span_digits_chars; [apply to_digits_all | assumption]. }
  pose proof (to_digits_nonempty (Z.to_N (Z.abs e))) as Hne.
  destruct (Z.ltb_spec e 0) as [He | He]; cbn [N.eqb Pos.eqb];
    rewrite Hsp; destruct (to_digits (Z.to_N (Z.abs e))) as [|d ds] eqn:Ed;
    try congruence; rewrite <- Ed, to_digits_value; do 2 f_equal; lia.
Qed.

Lemma number_of_Q_ext (neg : bool) (v w : Q) :
  v == w -> number_of_Q neg v = number_of_Q neg w.
Proof.
  intros E. unfold number_of_Q. now rewrite (round_Q_ext v w E).
Qed.

Lemma decimal_Q_shift (s j : Z) :
  0 <= j -> decimal_Q (s * 10 ^ j) 0 == decimal_Q s j.
Proof.
  intros Hj. unfold decimal_Q. rewrite inject_Z_mult.
  rewrite <- (Qpower_nonneg_Z 10 j Hj).
  change (inject_Z 10) with 10%Q. change (10 ^ 0)%Q with 1%Q. ring.
Qed.

Lemma repeat_zero_chars (j : nat) :
  repeat 48%N j = map digit_char (repeat 0%N j).
Proof.
  induction j as [|j IH]; cbn [repeat map]; [reflexivity|].
  rewrite IH. reflexivity.
Qed.

Lemma all_digits_zeros (j : nat) : all_digits (repeat 0%N j).
Proof.
  induction j as [|j IH]; simpl; [constructor | constructor; [lia | exact IH]].
Qed.

Lemma all_digits_app (a b : list N) :
  all_digits a -> all_digits b -> all_digits (a ++ b).
Proof. intros. apply Forall_app. now split. Qed.

Lemma all_digits_firstn (n : nat) (l : list N) :
  all_digits l -> all_digits (firstn n l).
Proof.
  intros H. revert n. induction H as [|d l Hd _ IH]; intros [|n]; simpl;
    try constructor; auto. apply IH.
Qed.

Lemma all_digits_skipn (n : nat) (l : list N) :
  all_digits l -> all_digits (skipn n l).
Proof.
  intros H. revert n. induction H as [|d l Hd Hl IH]; intros [|n]; simpl;
    try constructor; auto.
Qed.

Lemma span_zero_point (x : jsstring) :
  span_digits (48%N :: 46%N :: x) = ([0%N], 46%N :: x).
Proof. reflexivity. Qed.

Lemma lex_magnitude_format (neg : bool) (d : N) (ds : list N) (n : Z)
  (rest : jsstring) :
  all_digits (d :: ds) -> (0 < d)%N -> number_end rest = true ->
  lex_magnitude neg (format_decimal (d :: ds) n ++ rest)
  = Some (number_of_Q neg
            (decimal_Q (Z.of_N (digits_value (d :: ds)))
               (n - Z.of_nat (length (d :: ds)))), rest).
Proof.
  intros Hds Hd Hrest.
  assert (Hnd := number_end_no_digit rest Hrest).
  assert (Hd0 : (d =? 0)%N = false) by (apply N.eqb_neq; lia).
  inversion Hds as [|? ? Hd10 Hds']; subst.
  unfold format_decimal. set (k := Z.of_nat (length (d :: ds))).
  destruct ((k <=? n) && (n <=? 21)) eqn:C1.
  { (* digits followed by zeros *)
    apply andb_prop in C1. destruct C1 as [C1 _]. apply Z.leb_le in C1.
    rewrite repeat_zero_chars, <- map_app.
    unfold lex_magnitude. rewrite span_digits_chars;
      [| apply all_digits_app; [assumption | apply all_digits_zeros]
       | assumption].
    cbn [app]. rewrite Hd0. cbn [andb].
    rewrite (lex_fraction_end rest Hrest), (lex_exponent_end rest Hrest).
    f_equal. f_equal. unfold number_of_decimal. apply number_of_Q_ext.
    rewrite app_nil_r. cbn [length].
    change (d :: ds ++ ?x) with ((d :: ds) ++ x).
    rewrite digits_value_app, repeat_length, digits_value_repeat_zero.
    rewrite N.add_0_r, N2Z.inj_mul, N2Z.inj_pow, nat_N_Z, Z2Nat.id by lia.
    change (Z.of_N 10) with 10. change (0 - Z.of_nat 0) with 0.
    apply decimal_Q_shift. lia. }
  destruct ((0 <? n) && (n <=? 21)) eqn:C2.
  { (* digits with a decimal point inside *)
    apply andb_prop in C2. destruct C2 as [C2 C2']. apply Z.ltb_lt in C2.
    apply Z.leb_le in C2'.
    assert (Hnk : n < k).
    { destruct (Z.leb_spec k n); [|assumption].
      rewrite (proj2 (Z.leb_le n 21) C2') in C1. discriminate. }
    cbv zeta. rewrite firstn_map, skipn_map.
    destruct (Z.to_nat n) as [|n'] eqn:En; [lia|].
    cbn [firstn skipn map].
    assert (Hlen : (n' < length ds)%nat) by (unfold k in Hnk; simpl length in Hnk; lia).
    assert (Hf : all_digits (firstn n' ds)) by (apply all_digits_firstn; assumption).
    assert (Hs : all_digits (skipn n' ds)) by (apply all_digits_skipn; assumption).
    unfold lex_magnitude. rewrite <- !app_assoc. cbn [app].
    change (digit_char d :: map digit_char (firstn n' ds) ++ ?x)
      with (map digit_char (d :: firstn n' ds) ++ x).

    rewrite span_digits_stop; [| constructor; assumption | reflexivity].
    rewrite Hd0. cbn [andb].
    unfold lex_fraction. cbn [N.eqb Pos.eqb].
    rewrite span_digits_chars by assumption.
    destruct (skipn n' ds) as [|f fs] eqn:Es.
    { apply (f_equal (@length N)) in Es. rewrite length_skipn in Es.
      simpl in Es. lia. }
    rewrite (lex_exponent_end rest Hrest).
    f_equal. f_equal. unfold number_of_decimal. rewrite <- Es.
    cbn [app]. rewrite firstn_skipn. f_equal. f_equal.
    rewrite length_skipn. unfold k. cbn [length]. lia. }
  destruct ((-6 <? n) && (n <=? 0)) eqn:C3.
  { (* zero, point, zeros, digits *)
    apply andb_prop in C3. destruct C3 as [_ C3]. apply Z.leb_le in C3.
    unfold lex_magnitude. rewrite <- !app_assoc.
    change ([48%N; 46%N] ++ ?x) with (48%N :: 46%N :: x).
    rewrite span_zero_point.
    change ((0 =? 0)%N && negb true) with false. cbv iota.
    rewrite repeat_zero_chars.
    unfold lex_fraction. cbn [N.eqb Pos.eqb].
    rewrite app_assoc, <- map_app, span_digits_chars;
      [| apply all_digits_app; [apply all_digits_zeros | assumption]
       | assumption].
    destruct (repeat 0%N (Z.to_nat (- n)) ++ d :: ds) as [|f fs] eqn:Es.
    { apply (f_equal (@length N)) in Es. rewrite length_app in Es.
      simpl in Es. lia. }
    rewrite (lex_exponent_end rest Hrest).
    f_equal. f_equal. unfold number_of_decimal. rewrite <- Es.
    change ([0%N] ++ ?x) with (repeat 0%N 1 ++ x).
    rewrite !digits_value_zeros. f_equal. f_equal.
    rewrite length_app, repeat_length. unfold k. cbn [length]. lia. }
  (* exponent notation *)
  fold (exponent_text (n - 1)).
  destruct ds as [|d' ds]; cbn [map].
  - unfold lex_magnitude. cbn [app].
    change (digit_char d :: exponent_text (n - 1) ++ rest)
      with (map digit_char [d] ++ exponent_text (n - 1) ++ rest).
    unfold exponent_text at 1. cbn [app].
    rewrite span_digits_stop; [| assumption | reflexivity].
    rewrite Hd0. cbn [andb]. unfold lex_fraction. cbn [N.eqb Pos.eqb].
    change (101%N :: ?s :: ?x ++ rest) with (exponent_text (n - 1) ++ rest).
    rewrite lex_exponent_text by assumption.
    f_equal. f_equal. unfold number_of_decimal. f_equal. f_equal.
    unfold k. cbn [length]. lia.
  - unfold lex_magnitude. cbn [map app]. rewrite <- app_assoc.
    change (digit_char d :: 46%N :: ?x)
      with (map digit_char [d] ++ 46%N :: x).
    rewrite span_digits_stop;
      [| constructor; [assumption | constructor] | reflexivity].
    rewrite Hd0. cbn [andb]. unfold lex_fraction. cbn [N.eqb Pos.eqb].
    change (digit_char d' :: map digit_char ds ++ ?x)
      with (map digit_char (d' :: ds) ++ x).
    unfold exponent_text at 1. cbn [app].
    rewrite span_digits_stop; [| assumption | reflexivity].
    change (101%N :: ?s :: ?x ++ rest) with (exponent_text (n - 1) ++ rest).
    rewrite lex_exponent_text by assumption.
    f_equal. f_equal. unfold number_of_decimal. f_equal. f_equal.
    unfold k. cbn [length]. lia.
Qed.

Lemma lex_magnitude_not_minus (neg : bool) (t : jsstring) :
  lex_magnitude neg (45%N :: t) = None.
Proof. reflexivity. Qed.

Lemma lex_number_to_string (neg : bool) (m e : Z) (rest : jsstring) :
  canonical m e -> number_end rest = true ->
  lex_number (number_to_string (Finite neg m e) ++ rest)
  = Some (unsigned_zero (Finite neg m e), rest).
Proof.
  intros Hc Hrest. unfold number_to_string, unsigned_zero.
  destruct (Z.eqb_spec m 0) as [-> | Hm].
  - assert (e = -1074) as ->.
    { destruct Hc as (_ & ? & H). destruct (Z.eq_dec e (-1074)); [assumption|].
      assert (2 ^ 52 <= 0) by (apply H; lia). lia. }
    change (js "0" ++ rest) with (map digit_char [0%N] ++ rest).
    unfold lex_number. cbn [map app]. change (digit_char 0 =? 45)%N with false.
    cbv iota. unfold lex_magnitude.
    change (digit_char 0 :: rest) with (map digit_char [0%N] ++ rest).
    rewrite span_digits_chars;
      [| constructor; [lia | constructor] | now apply number_end_no_digit].
    cbn [N.eqb andb negb].
    rewrite (lex_fraction_end rest Hrest), (lex_exponent_end rest Hrest).
    f_equal.
  - assert (Hpos : 0 < m) by (destruct Hc as ((? & _) & _); lia).
    destruct (digits_of_spec m e Hc Hpos) as (Hall & (d & ds & Eds & Hd) & Hr).
    destruct (digits_of m e) as [ds0 n]. cbn [fst snd] in *. subst ds0.
    pose proof (lex_magnitude_format neg d ds n rest Hall Hd Hrest) as L.
    assert (Hval : forall b,
      number_of_Q b (decimal_Q (Z.of_N (digits_value (d :: ds)))
                       (n - Z.of_nat (length (d :: ds)))) = Finite b m e).
    { intros b. unfold number_of_Q. rewrite Hr.
      destruct Hc as (_ & (_ & He) & _).
      destruct (Z.ltb_spec 971 e); [lia | reflexivity]. }
    rewrite Hval in L.
    destruct neg.
    + change (js "-" ++ ?x) with (45%N :: x). cbn [app].
      unfold lex_number. cbn [N.eqb Pos.eqb]. exact L.
    + cbn [app]. unfold lex_number.
      destruct (format_decimal (d :: ds) n ++ rest) as [|c t] eqn:E.
      * discriminate L.
      * destruct (N.eqb_spec c 45) as [-> | _]; [|exact L].
        rewrite lex_magnitude_not_minus in L. discriminate L.
Qed.

(** ** Reading back a quoted string *)

Lemma hex_value_char (d : N) : (d < 16)%N -> hex_value (hex_char d) = Some d.
Proof.
  intros H. unfold hex_char, hex_value.
  destruct (N.ltb_spec d 10).
  - replace ((48 <=? 48 + d) && (48 + d <=? 57))%N with true
      by (symmetry; apply andb_true_intro; split; apply N.leb_le; lia).
    f_equal. lia.
  - replace ((48 <=? 87 + d) && (87 + d <=? 57))%N with false
      by (symmetry; apply andb_false_intro2; apply N.leb_gt; lia).
    replace ((97 <=? 87 + d) && (87 + d <=? 102))%N with true
      by (symmetry; apply andb_true_intro; split; apply N.leb_le; lia).
    f_equal. lia.
Qed.

Lemma hex4_escape (c : code_unit) :
  (c < 65536)%N ->
  hex4 (hex_char (c / 4096 mod 16)) (hex_char (c / 256 mod 16))
       (hex_char (c / 16 mod 16)) (hex_char (c mod 16)) = Some c.
Proof.
  intros H. unfold hex4.
  rewrite !hex_value_char by (apply N.mod_lt; lia).
  apply (f_equal Some).
  replace (c / 256)%N with (c / 16 / 16)%N
    by (rewrite N.Div0.div_div; reflexivity).
  replace (c / 4096)%N with (c / 16 / 16 / 16)%N
    by (rewrite !N.Div0.div_div; reflexivity).
  rewrite (N.mod_small (c / 16 / 16 / 16) 16).
  - pose proof (N.div_mod c 16 ltac:(lia)).
    pose proof (N.div_mod (c / 16) 16 ltac:(lia)).
    pose proof (N.div_mod (c / 16 / 16) 16 ltac:(lia)).
    lia.
  - do 3 apply N.Div0.div_lt_upper_bound. lia.
Qed.

Lemma lex_string_escape (c : code_unit) (s : jsstring) :
  (c < 65536)%N ->
  lex_string (unicode_escape c ++ s) = prepend c (lex_string s).
Proof.
  intros H. unfold unicode_escape. cbn [app lex_string].
  cbn [N.eqb Pos.eqb]. now rewrite hex4_escape.
Qed.

Lemma lex_string_plain (c : code_unit) (s : jsstring) :
  (c =? 34)%N = false -> (c =? 92)%N = false -> (c <? 32)%N = false ->
  lex_string (c :: s) = prepend c (lex_string s).
Proof. intros H1 H2 H3. cbn [lex_string]. now rewrite H1, H2, H3. Qed.

Lemma lex_string_quote_body (n : nat) :
  forall s rest, (length s <= n)%nat ->
    lex_string (quote_body s ++ 34%N :: rest) = Some (s, rest).
Proof.
  induction n as [|n IH]; intros s rest Hlen.
  - destruct s; [reflexivity | simpl in Hlen; lia].
  - destruct s as [|c s]; [reflexivity|]. simpl in Hlen.
    assert (IHs : lex_string (quote_body s ++ 34%N :: rest) = Some (s, rest))
      by (apply IH; lia).
    cbn [quote_body].
    destruct (N.eqb_spec c 8) as [-> | N8];
      [cbn; cbn in IHs; now rewrite IHs|].
    destruct (N.eqb_spec c 9) as [-> | N9];
      [cbn; cbn in IHs; now rewrite IHs|].
    destruct (N.eqb_spec c 10) as [-> | N10];
      [cbn; cbn in IHs; now rewrite IHs|].
    destruct (N.eqb_spec c 12) as [-> | N12];
      [cbn; cbn in IHs; now rewrite IHs|].
    destruct (N.eqb_spec c 13) as [-> | N13];
      [cbn; cbn in IHs; now rewrite IHs|].
    destruct (N.eqb_spec c 34) as [-> | N34];
      [cbn; cbn in IHs; now rewrite IHs|].
    destruct (N.eqb_spec c 92) as [-> | N92];
      [cbn; cbn in IHs; now rewrite IHs|].
    assert (E34 : (c =? 34)%N = false) by (apply N.eqb_neq; assumption).
    assert (E92 : (c =? 92)%N = false) by (apply N.eqb_neq; assumption).
    destruct (N.ltb_spec c 32) as [L32 | G32].
    { rewrite <- app_assoc, lex_string_escape by lia. now rewrite IHs. }
    assert (E32 : (c <? 32)%N = false) by (apply N.ltb_ge; assumption).
    destruct (is_high_surrogate c) eqn:Hh.
    { unfold is_high_surrogate in Hh. apply andb_prop in Hh.
      destruct Hh as [Hh1 Hh2]. apply N.leb_le in Hh1, Hh2.
      destruct s as [|d s'].
      - rewrite lex_string_escape by lia. reflexivity.
      - destruct (is_low_surrogate d) eqn:Hl.
        + unfold is_low_surrogate in Hl. apply andb_prop in Hl.
          destruct Hl as [Hl1 Hl2]. apply N.leb_le in Hl1, Hl2.
          cbn [app]. rewrite lex_string_plain by assumption.
          rewrite lex_string_plain;
            [| apply N.eqb_neq; lia | apply N.eqb_neq; lia
             | apply N.ltb_ge; lia].
          rewrite IH by (simpl in Hlen; lia). reflexivity.
        + rewrite <- app_assoc, lex_string_escape by lia. now rewrite IHs. }
    destruct (is_low_surrogate c) eqn:Hl.
    { unfold is_low_surrogate in Hl. apply andb_prop in Hl.
      destruct Hl as [Hl1 Hl2]. apply N.leb_le in Hl1, Hl2.
      rewrite <- app_assoc, lex_string_escape by lia. now rewrite IHs. }
    cbn [app]. rewrite lex_string_plain by assumption. now rewrite IHs.
Qed.

Lemma lex_string_quoted (s rest : jsstring) :
  lex_string (quote_body s ++ 34%N :: rest) = Some (s, rest).
Proof. apply (lex_string_quote_body (length s)). lia. Qed.

(** ** The lexer does not run out of fuel *)

Lemma span_digits_length (s : jsstring) :
  (length (snd (span_digits s)) + length (fst (span_digits s)) = length s)%nat.
Proof.
  induction s as [|c s IH]; simpl; [reflexivity|].
  destruct (is_digit c); [|simpl; lia].
  destruct (span_digits s) as [ds rest]. simpl in *. lia.
Qed.

(** A sub-lexer that has read a non-empty run of digits of [s] returns a
    rest that is shorter than [s]. *)
Ltac after_digits s :=
  let L := fresh "L" in
  pose proof (span_digits_length s) as L;
  destruct (span_digits s) as [[|? ?] ?]; [discriminate|];
  intros [= _ <-]; simpl in *; lia.

Lemma lex_fraction_length (s : jsstring) fs rest :
  lex_fraction s = Some (fs, rest) -> (length rest <= length s)%nat.
Proof.
  unfold lex_fraction. destruct s as [|c s]; [intros [= <- <-]; simpl; lia|].
  destruct (c =? 46)%N; [|intros [= <- <-]; simpl; lia].
  after_digits s.
Qed.

Lemma lex_exponent_length (s : jsstring) ex rest :
  lex_exponent s = Some (ex, rest) -> (length rest <= length s)%nat.
Proof.
  unfold lex_exponent. destruct s as [|c s]; [intros [= <- <-]; simpl; lia|].
  destruct ((c =? 101)%N || (c =? 69)%N); [|intros [= <- <-]; simpl; lia].
  destruct s as [|c' t].
  - simpl. discriminate.
  - destruct (c' =? 45)%N; [|destruct (c' =? 43)%N];
      [after_digits t | after_digits t | after_digits (c' :: t)].
Qed.

Lemma lex_magnitude_length (neg : bool) (s : jsstring) x rest :
  lex_magnitude neg s = Some (x, rest) -> (length rest < length s)%nat.
Proof.
  unfold lex_magnitude. pose proof (span_digits_length s) as L.
  destruct (span_digits s) as [[|d ds] s1]; [discriminate|].
  destruct (_ && _); [discriminate|].
  destruct (lex_fraction s1) as [[fs s2]|] eqn:F; [|discriminate].
  destruct (lex_exponent s2) as [[ex s3]|] eqn:X; [|discriminate].
  intros [= _ <-]. apply lex_fraction_length in F.
  apply lex_exponent_length in X. simpl in *. lia.
Qed.

Lemma lex_number_length (s : jsstring) x rest :
  lex_number s = Some (x, rest) -> (length rest < length s)%nat.
Proof.
  unfold lex_number. destruct s as [|c t]; [discriminate|].
  destruct (c =? 45)%N; intros H; apply lex_magnitude_length in H;
    simpl in *; lia.
Qed.

Lemma prepend_length c r t rest (n : nat) :
  (forall t' rest', r = Some (t', rest') -> (length rest' < n)%nat) ->
  prepend c r = Some (t, rest) -> (length rest < n)%nat.
Proof.
  intros H. destruct r as [[t' rest']|]; simpl; [|discriminate].
  intros [= _ <-]. now apply (H t').
Qed.

Lemma lex_string_length (n : nat) :
  forall s t rest, (length s <= n)%nat ->
    lex_string s = Some (t, rest) -> (length rest < length s)%nat.
Proof.
  induction n as [|n IH]; intros s t rest Hn;
    destruct s as [|c s1]; simpl in Hn; try discriminate; try lia.
  cbn [lex_string].
  destruct (c =? 34)%N; [intros [= _ <-]; simpl; lia|].
  destruct (c =? 92)%N.
  - destruct s1 as [|e s2]; [discriminate|].
    destruct (e =? 117)%N.
    + destruct s2 as [|h1 [|h2 [|h3 [|h4 s3]]]]; try discriminate.
      destruct (hex4 h1 h2 h3 h4); [|discriminate].
      apply prepend_length. intros t' rest' H.
      apply IH in H; simpl in *; lia.
    + destruct (escape_char e); [|discriminate].
      apply prepend_length. intros t' rest' H.
      apply IH in H; simpl in *; lia.
  - destruct (c <? 32)%N; [discriminate|].
    apply prepend_length. intros t' rest' H.
    apply IH in H; simpl in *; lia.
Qed.

Lemma strip_prefix_length (p s rest : jsstring) :
  strip_prefix p s = Some rest -> (length s = length p + length rest)%nat.
Proof.
  revert s. induction p as [|a p IH]; intros s; simpl.
  - intros [= ->]. reflexivity.
  - destruct s as [|b s]; [discriminate|].
    destruct (a =? b)%N; [|discriminate]. intros H. apply IH in H.
    simpl. lia.
Qed.

(** [lex_step] calls its continuation on shorter texts only. *)
Lemma lex_step_ext (k1 k2 : jsstring -> option (list token)) (s : jsstring) :
  (forall r, (length r < length s)%nat -> k1 r = k2 r) ->
  lex_step k1 s = lex_step k2 s.
Proof.
  intros H. unfold lex_step. destruct s as [|c rest]; [reflexivity|].
  assert (Hr : k1 rest = k2 rest) by (apply H; simpl; lia).
  destruct (is_ws c); [exact Hr|].
  repeat (match goal with
          | |- (if ?b then _ else _) = _ =>
              destruct b; [now rewrite Hr|]
          end).
  destruct (c =? 34)%N.
  { destruct (lex_string rest) as [[str rest']|] eqn:E; [|reflexivity].
    apply (lex_string_length (length rest)) in E; [|lia].
    rewrite H by (simpl; lia). reflexivity. }
  destruct ((c =? 45)%N || is_digit c).
  { destruct (lex_number (c :: rest)) as [[x rest']|] eqn:E; [|reflexivity].
    apply lex_number_length in E. rewrite H by exact E. reflexivity. }
  repeat (match goal with
          | |- match strip_prefix ?p ?s with _ => _ end = _ =>
              let E := fresh "E" in
              destruct (strip_prefix p s) as [?|] eqn:E;
              [apply strip_prefix_length in E;
               rewrite H by (simpl in *; lia); reflexivity|]
          end).
  reflexivity.
Qed.

Lemma lex_fuel (n : nat) :
  forall s f1 f2, (length s <= n)%nat ->
    (length s < f1)%nat -> (length s < f2)%nat -> lex f1 s = lex f2 s.
Proof.
  induction n as [|n IH]; intros s f1 f2 Hn H1 H2;
    destruct f1 as [|f1]; destruct f2 as [|f2]; try lia; cbn [lex];
    apply lex_step_ext; intros r Hr.
  - lia.
  - apply IH; lia.
Qed.

(** The equation of the lexer, without fuel. *)
Lemma JSON_lex_step (s : jsstring) : JSON_lex s = lex_step JSON_lex s.
Proof.
  unfold JSON_lex at 1. cbn [lex]. apply lex_step_ext. intros r Hr.
  unfold JSON_lex. apply (lex_fuel (length r)); lia.
Qed.

Lemma value_ind (P : value -> Prop) :
  P VUndefined -> P VNull -> (forall b, P (VBool b)) ->
  (forall x, P (VNumber x)) -> (forall s, P (VString s)) ->
  (forall es, Forall P es -> P (VArray es)) ->
  (forall ps, Forall (fun p => P (snd p)) ps -> P (VObject ps)) ->
  (forall b, P (VBuiltin b)) ->
  forall v, P v.
Proof.
  intros Hu Hn Hb Hx Hs Ha Ho Hi.
  fix IH 1. intros [| |b|x|s|es|ps|b];
    [exact Hu | exact Hn | apply Hb | apply Hx | apply Hs | | | apply Hi].
  - apply Ha. induction es as [|e es IHes]; constructor; [apply IH | exact IHes].
  - apply Ho. induction ps as [|p ps IHps]; constructor;
      [apply IH | exact IHps].
Qed.

Lemma well_formed_array (es : list value) :
  well_formed (VArray es) <-> Forall well_formed es.
Proof.
  induction es as [|e es IH]; simpl.
  - split; [constructor | trivial].
  - split.
    + intros [He Hes]. constructor; [assumption | now apply IH].
    + intros H. inversion H; subst. split; [assumption | now apply IH].
Qed.

Lemma well_formed_object (ps : list (jsstring * value)) :
  well_formed (VObject ps)
  <-> StronglySorted key_order ps /\ Forall (fun p => well_formed (snd p)) ps.
Proof.
  simpl. apply and_iff_compat_l.
  induction ps as [|p ps IH].
  - split; [constructor | trivial].
  - split.
    + intros [He Hes]. constructor; [assumption | now apply IH].
    + intros H. inversion H; subst. split; [assumption | now apply IH].
Qed.

Lemma add_tokens_app (a b : list token) r :
  add_tokens (a ++ b) r = add_tokens a (add_tokens b r).
Proof. destruct r; simpl; [now rewrite app_assoc | reflexivity]. Qed.

Lemma push_add (t : token) r : push t r = add_tokens [t] r.
Proof. destruct r; reflexivity. Qed.

Lemma JSON_lex_ws (w rest : jsstring) :
  all_ws w -> JSON_lex (w ++ rest) = JSON_lex rest.
Proof.
  intros H. induction H as [|c w Hc _ IH]; [reflexivity|].
  cbn [app]. rewrite JSON_lex_step. cbn [lex_step]. now rewrite Hc.
Qed.

Lemma JSON_lex_punct (c : code_unit) (t : token) (rest : jsstring) :
  In (c, t) [(123, TLBrace); (125, TRBrace); (91, TLBracket);
             (93, TRBracket); (58, TColon); (44, TComma)]%N ->
  JSON_lex (c :: rest) = add_tokens [t] (JSON_lex rest).
Proof.
  intros H. rewrite JSON_lex_step, <- push_add.
  repeat (destruct H as [[= <- <-] | H]; [reflexivity|]). destruct H.
Qed.

Lemma JSON_lex_string (s rest : jsstring) :
  JSON_lex (QuoteJSONString s ++ rest)
  = add_tokens [TString s] (JSON_lex rest).
Proof.
  unfold QuoteJSONString. rewrite <- !app_assoc. cbn [app].
  rewrite JSON_lex_step. cbn [lex_step is_ws N.eqb Pos.eqb orb].
  rewrite lex_string_quoted. apply push_add.
Qed.

Lemma JSON_lex_keyword (p : jsstring) (t : token) (rest : jsstring) :
  In (p, t) [(js "true", TTrue); (js "false", TFalse); (js "null", TNull)] ->
  JSON_lex (p ++ rest) = add_tokens [t] (JSON_lex rest).
Proof.
  intros H. rewrite JSON_lex_step, <- push_add.
  repeat (destruct H as [[= <- <-] | H]; [reflexivity|]). destruct H.
Qed.

Lemma number_to_string_head (neg : bool) (m e : Z) (rest : jsstring) x :
  lex_number (number_to_string (Finite neg m e) ++ rest) = Some (x, rest) ->
  exists c t, number_to_string (Finite neg m e) ++ rest = c :: t
              /\ ((c =? 45)%N || is_digit c) = true.
Proof.
  destruct (number_to_string (Finite neg m e) ++ rest) as [|c t] eqn:E;
    [discriminate|].
  intros H. exists c, t. split; [reflexivity|].
  unfold lex_number in H. destruct (c =? 45)%N; [reflexivity|].
  unfold lex_magnitude in H. cbn [span_digits] in H.
  destruct (is_digit c); [reflexivity | discriminate].
Qed.

Lemma JSON_lex_number (neg : bool) (m e : Z) :
  canonical m e ->
  lexes_as (number_to_string (Finite neg m e))
    [TNumber (unsigned_zero (Finite neg m e))].
Proof.
  intros Hc rest Hrest.
  pose proof (lex_number_to_string neg m e rest Hc Hrest) as L.
  destruct (number_to_string_head _ _ _ _ _ L) as (c & t & E & Hd).
  rewrite JSON_lex_step. rewrite E in *. unfold lex_step.
  assert (Hws : is_ws c = false).
  { unfold is_ws. unfold is_digit in Hd.
    destruct (N.eqb_spec c 45) as [-> | _]; [reflexivity|].
    simpl in Hd. apply andb_prop in Hd. destruct Hd as [H1 H2].
    apply N.leb_le in H1. apply N.leb_le in H2.
    repeat (apply orb_false_intro); apply N.eqb_neq; lia. }
  rewrite Hws.
  assert (Hp : forall k, (k < 45 \/ 57 < k)%N -> (c =? k)%N = false).
  { intros k Hk. unfold is_digit in Hd.
    destruct (N.eqb_spec c 45) as [-> | _]; [apply N.eqb_neq; lia|].
    simpl in Hd. apply andb_prop in Hd. destruct Hd as [H1 H2].
    apply N.leb_le in H1. apply N.leb_le in H2. apply N.eqb_neq. lia. }
  rewrite !Hp by lia. rewrite Hd, L. apply push_add.
Qed.

Lemma number_end_ws (w : jsstring) (c : code_unit) (rest : jsstring) :
  all_ws w -> In c [93; 125; 44]%N -> number_end (w ++ c :: rest) = true.
Proof.
  intros Hw Hc. destruct Hw as [|d w Hd _].
  - simpl in Hc. cbn [app number_end].
    repeat (destruct Hc as [<- | Hc]; [reflexivity|]). destruct Hc.
  - cbn [app number_end]. unfold is_ws in Hd.
    repeat (apply orb_prop in Hd; destruct Hd as [Hd | Hd]);
      apply N.eqb_eq in Hd; subst d; reflexivity.
Qed.

Lemma lexes_as_app (t1 t2 : jsstring) (ts1 ts2 : list token) :
  (forall rest, JSON_lex (t1 ++ rest) = add_tokens ts1 (JSON_lex rest)) ->
  lexes_as t2 ts2 -> lexes_as (t1 ++ t2) (ts1 ++ ts2).
Proof.
  intros H1 H2 rest Hrest.
  now rewrite <- app_assoc, H1, (H2 rest Hrest), add_tokens_app.
Qed.

(** The members of an array or an object, separated by commas. *)
Lemma lexes_join (w : jsstring) (items : list (jsstring * list token)) :
  all_ws w -> items <> [] ->
  Forall (fun p => lexes_as (fst p) (snd p)) items ->
  forall c rest w', all_ws w' -> In c [93; 125]%N ->
    JSON_lex (join (44%N :: w) (map fst items) ++ w' ++ c :: rest)
    = add_tokens (sep_concat (map snd items)) (JSON_lex (c :: rest)).
Proof.
  intros Hw Hne Hall c rest w' Hw' Hc.
  induction Hall as [|[t ts] items Ht Hitems IH]; [congruence|].
  cbn [fst snd] in Ht.
  destruct items as [|[t2 ts2] items].
  - cbn [map join fst snd sep_concat flat_map]. rewrite app_nil_r.
    rewrite (Ht (w' ++ c :: rest)).
    2:{ apply number_end_ws; [assumption|].
        destruct Hc as [<- | [<- | []]]; simpl; auto. }
    rewrite JSON_lex_ws by assumption. reflexivity.
  - specialize (IH ltac:(discriminate)).
    change (join (44%N :: w) (map fst ((t, ts) :: (t2, ts2) :: items)))
      with (t ++ (44%N :: w)
            ++ join (44%N :: w) (map fst ((t2, ts2) :: items))).
    rewrite <- !app_assoc.
    rewrite (Ht _) by (apply (number_end_ws []); [constructor | simpl; auto]).
    cbn [app]. rewrite (JSON_lex_punct 44%N TComma) by (simpl; auto 10).
    rewrite JSON_lex_ws by assumption.
    rewrite IH.
    rewrite <- !add_tokens_app, <- !app_assoc.
    cbn [map snd sep_concat flat_map app]. reflexivity.
Qed.

Lemma wrap_lexes (o c : code_unit) (to tc : token) (gap indent : jsstring)
  (items : list (jsstring * list token)) :
  In (o, to) [(91, TLBracket); (123, TLBrace)]%N ->
  In (c, tc) [(93, TRBracket); (125, TRBrace)]%N ->
  all_ws gap -> all_ws indent ->
  Forall (fun p => lexes_as (fst p) (snd p)) items ->
  lexes_as (wrap o c gap indent (map fst items))
    (to :: sep_concat (map snd items) ++ [tc]).
Proof.
  intros Ho Hc Hgap Hind Hall rest Hrest.
  assert (Hc' : In c [93; 125]%N).
  { destruct Hc as [[= <- _] | [[= <- _] | []]]; simpl; auto. }
  assert (Eo : forall r, JSON_lex (o :: r) = add_tokens [to] (JSON_lex r)).
  { intros r. apply JSON_lex_punct.
    destruct Ho as [[= <- <-] | [[= <- <-] | []]]; simpl; auto 10. }
  assert (Ec : forall r, JSON_lex (c :: r) = add_tokens [tc] (JSON_lex r)).
  { intros r. apply JSON_lex_punct.
    destruct Hc as [[= <- <-] | [[= <- <-] | []]]; simpl; auto 10. }
  unfold wrap. destruct items as [|it items].
  - cbn [map is_empty app sep_concat]. rewrite Eo, Ec.
    now rewrite <- !add_tokens_app.
  - cbn [map is_empty]. change (fst it :: map fst items)
      with (map fst (it :: items)).
    change (snd it :: map snd items) with (map snd (it :: items)).
    destruct gap as [|g gap]; cbn [is_empty].
    + rewrite <- !app_assoc. cbn [app]. rewrite Eo.
      change (join [44%N] (map fst (it :: items)) ++ c :: rest)
        with (join [44%N] (map fst (it :: items)) ++ [] ++ c :: rest).
      rewrite (lexes_join [] (it :: items) ltac:(constructor)
                 ltac:(discriminate) Hall c rest [] ltac:(constructor) Hc').
      rewrite Ec. rewrite <- !add_tokens_app. reflexivity.
    + set (inner := indent ++ g :: gap).
      assert (Hinner : all_ws inner) by (apply Forall_app; now split).
      rewrite <- !app_assoc. cbn [app]. rewrite Eo.
      change (10%N :: inner ++ ?x) with ((10%N :: inner) ++ x).
      rewrite (JSON_lex_ws (10%N :: inner))
        by (constructor; [reflexivity | assumption]).
      change (10%N :: indent ++ c :: rest)
        with ((10%N :: indent) ++ c :: rest).
      rewrite (lexes_join (10%N :: inner) (it :: items)
                 ltac:(constructor; [reflexivity | assumption])
                 ltac:(discriminate) Hall c rest (10%N :: indent)
                 ltac:(constructor; [reflexivity | assumption]) Hc').
      rewrite Ec. rewrite <- !add_tokens_app. reflexivity.
Qed.

Lemma lexes_as_keyword (p : jsstring) (t : token) :
  In (p, t) [(js "true", TTrue); (js "false", TFalse); (js "null", TNull)] ->
  lexes_as p [t].
Proof. intros H rest _. now apply JSON_lex_keyword. Qed.

(** The text of a well-formed value is cut into the tokens of the
    value. *)
Lemma lex_serialize (v : value) :
  well_formed v ->
  forall gap indent, all_ws gap -> all_ws indent ->
    exists t, serialize gap indent v = Some t /\ lexes_as t (tokens_of v).
Proof.
  induction v as [| |b|x|s|es IH|ps IH|b] using value_ind;
    intros Hwf gap indent Hgap Hind; try contradiction.
  - eexists. split; [reflexivity|]. apply lexes_as_keyword. simpl; auto.
  - destruct b; (eexists; split; [reflexivity|]);
      apply lexes_as_keyword; simpl; auto.
  - cbn [serialize tokens_of].
    destruct x as [|neg|neg m e]; cbn [is_finite];
      (eexists; split; [reflexivity|]).
    + apply lexes_as_keyword. simpl; auto.
    + apply lexes_as_keyword. simpl; auto.
    + apply JSON_lex_number. exact Hwf.
  - eexists. split; [reflexivity|]. intros rest _. apply JSON_lex_string.
  - apply well_formed_array in Hwf.
    assert (Hinner : all_ws (indent ++ gap)) by (apply Forall_app; now split).
    assert (G : exists items,
               map (fun e => match serialize gap (indent ++ gap) e with
                             | Some t => t
                             | None => js "null"
                             end) es = map fst items
               /\ map tokens_of es = map snd items
               /\ Forall (fun p => lexes_as (fst p) (snd p)) items).
    { clear - IH Hwf Hgap Hinner.
      induction es as [|e es IHes].
      - exists []. repeat split; constructor.
      - inversion IH as [|? ? He Hes]; subst.
        inversion Hwf as [|? ? We Wes]; subst.
        destruct (IHes Hes Wes) as (items & E1 & E2 & F).
        destruct (He We gap (indent ++ gap) Hgap Hinner) as (t & Et & Lt).
        exists ((t, tokens_of e) :: items). cbn [map fst snd].
        rewrite Et, E1, E2. repeat split. constructor; assumption. }
    destruct G as (items & E1 & E2 & F).
    exists (wrap 91%N 93%N gap indent (map fst items)). split.
    + cbn [serialize]. now rewrite E1.
    + cbn [tokens_of]. rewrite E2. apply wrap_lexes; simpl; auto.
  - apply well_formed_object in Hwf. destruct Hwf as [_ Hwf].
    assert (Hinner : all_ws (indent ++ gap)) by (apply Forall_app; now split).
    assert (G : exists items,
               (fix members (ps : list (jsstring * value)) : list jsstring :=
                  match ps with
                  | [] => []
                  | (k, x) :: ps' =>
                      match serialize gap (indent ++ gap) x with
                      | Some t =>
                          (QuoteJSONString k ++ [58%N]
                           ++ (if is_empty gap then [] else [32%N]) ++ t)
                          :: members ps'
                      | None => members ps'
                      end
                  end) ps = map fst items
               /\ map (fun p => TString (fst p) :: TColon
                                :: tokens_of (snd p)) ps = map snd items
               /\ Forall (fun p => lexes_as (fst p) (snd p)) items).
    { clear - IH Hwf Hgap Hinner.
      induction ps as [|[k x] ps IHps].
      - exists []. repeat split; constructor.
      - inversion IH as [|? ? He Hes]; subst.
        inversion Hwf as [|? ? We Wes]; subst.
        destruct (IHps Hes Wes) as (items & E1 & E2 & F).
        cbn [snd] in He, We.
        destruct (He We gap (indent ++ gap) Hgap Hinner) as (t & Et & Lt).
        exists ((QuoteJSONString k ++ [58%N]
                 ++ (if is_empty gap then [] else [32%N]) ++ t,
                 TString k :: TColon :: tokens_of x) :: items).
        cbn [map fst snd]. rewrite Et, E1, E2. repeat split.
        constructor; [|assumption]. cbn [fst snd].
        change (TString k :: TColon :: tokens_of x)
          with ([TString k] ++ [TColon] ++ tokens_of x).
        apply lexes_as_app; [intros r; apply JSON_lex_string|].
        apply lexes_as_app;
          [intros r; apply (JSON_lex_punct 58%N TColon); simpl; auto 10|].
        change (tokens_of x) with ([] ++ tokens_of x).
        apply lexes_as_app; [|exact Lt].
        intros r. destruct (is_empty gap).
        + cbn [app]. now destruct (JSON_lex r).
        + rewrite (JSON_lex_ws [32%N])
            by (constructor; [reflexivity | constructor]).
          now destruct (JSON_lex r). }
    destruct G as (items & E1 & E2 & F).
    exists (wrap 123%N 125%N gap indent (map fst items)). split.
    + cbn [serialize]. now rewrite E1.
    + cbn [tokens_of]. rewrite E2. apply wrap_lexes; simpl; auto.
Qed.

(** ** The automaton on the tokens of a value *)

Lemma run_app (st : parser_state) (ts1 ts2 : list token) :
  run st (ts1 ++ ts2)
  = match run st ts1 with
    | Some st' => run st' ts2
    | None => None
    end.
Proof.
  revert st. induction ts1 as [|t ts1 IH]; intros st; simpl; [reflexivity|].
  destruct (step st t); [apply IH | reflexivity].
Qed.

Lemma tokens_of_head (v : value) :
  well_formed v ->
  exists t ts, tokens_of v = t :: ts
    /\ forall stack,
         step (ArrayStart stack) t = step (ExpectValue (InArray [] :: stack)) t.
Proof.
  destruct v as [| |[|]|x|s|es|ps|b]; simpl; try contradiction; intros _;
    try (eexists; eexists; split; [reflexivity | reflexivity]).
  destruct (is_finite x); eexists; eexists; split; reflexivity.
Qed.

Lemma run_elements (es : list value) :
  Forall parses es ->
  forall done v0 stack rest,
    run (AfterValue v0 (InArray done :: stack))
      (flat_map (cons TComma) (map tokens_of es) ++ TRBracket :: rest)
    = run (AfterValue (VArray (rev (v0 :: done) ++ map reparsed es)) stack)
        rest.
Proof.
  intros H. induction H as [|e es He _ IH]; intros done v0 stack rest.
  - cbn [map flat_map app run step]. now rewrite app_nil_r.
  - cbn [map flat_map]. rewrite <- app_assoc. cbn [app run step].
    rewrite (He _ _), IH.
    cbn [rev map]. now rewrite <- !app_assoc.
Qed.

Lemma run_members (ps : list (jsstring * value)) :
  Forall (fun p => parses (snd p)) ps ->
  forall done k v0 stack rest,
    run (AfterValue v0 (InObject done k :: stack))
      (flat_map (cons TComma)
         (map (fun p => TString (fst p) :: TColon :: tokens_of (snd p)) ps)
       ++ TRBrace :: rest)
    = run (AfterValue
             (VObject (fold_left define (map member ps)
                         (define_property k v0 done))) stack) rest.
Proof.
  intros H. induction H as [|[k' x] ps Hx _ IH]; intros done k v0 stack rest.
  - reflexivity.
  - cbn [map flat_map fst snd]. rewrite <- app_assoc.
    cbn [app run step]. cbn [snd] in Hx.
    rewrite (Hx _ _), IH. reflexivity.
Qed.

Lemma run_value (v : value) : well_formed v -> parses v.
Proof.
  induction v as [| |b|x|s|es IH|ps IH|b] using value_ind;
    intros Hwf; try contradiction.
  - intros stack rest. reflexivity.
  - intros stack rest. destruct b; reflexivity.
  - intros stack rest. cbn [tokens_of reparsed].
    destruct (is_finite x); reflexivity.
  - intros stack rest. reflexivity.
  - apply well_formed_array in Hwf.
    assert (Hes : Forall parses es).
    { clear - IH Hwf. induction IH; inversion Hwf; subst; constructor; auto. }
    intros stack rest. cbn [tokens_of reparsed].
    destruct es as [|e es]; [reflexivity|].
    inversion Hes as [|? ? He Hes']; subst.
    inversion Hwf as [|? ? We _]; subst.
    destruct (tokens_of_head e We) as (t & ts & Et & Hstep).
    cbn [map sep_concat app run step begin_value].
    rewrite <- !app_assoc.
    transitivity (run (ExpectValue (InArray [] :: stack))
                    (tokens_of e ++ flat_map (cons TComma) (map tokens_of es)
                     ++ [TRBracket] ++ rest)).
    { rewrite Et. cbn [app run]. now rewrite Hstep. }
    rewrite (He _ _). cbn [app]. rewrite run_elements by assumption.
    reflexivity.
  - apply well_formed_object in Hwf. destruct Hwf as [_ Hwf].
    assert (Hps : Forall (fun p => parses (snd p)) ps).
    { clear - IH Hwf. induction IH; inversion Hwf; subst; constructor; auto. }
    intros stack rest. cbn [tokens_of reparsed].
    destruct ps as [|[k x] ps]; [reflexivity|].
    inversion Hps as [|? ? Hx Hps']; subst. cbn [snd] in Hx.
    cbn [map sep_concat app run step begin_value fst snd].
    rewrite <- !app_assoc, (Hx _ _). cbn [app].
    rewrite run_members by assumption. reflexivity.
Qed.

Lemma parse_tokens_of (v : value) :
  well_formed v -> parse_tokens (tokens_of v) = Some (reparsed v).
Proof.
  intros Hwf. unfold parse_tokens.
  rewrite <- (app_nil_r (tokens_of v)), (run_value v Hwf). reflexivity.
Qed.

Lemma all_ws_spaces (n : nat) : all_ws (repeat 32%N n).
Proof. induction n; simpl; constructor; [reflexivity | assumption]. Qed.

(** Parsing the text of a well-formed value gives the value back, up to
    what the text does not record: the sign of a zero, and the numbers
    that are not finite. *)
Lemma parse_stringify (v : value) (space : nat) :
  well_formed v ->
  exists t, JSON_stringify v space = Some t
            /\ JSON_parse t = Some (reparsed v).
Proof.
  intros Hwf. unfold JSON_stringify.
  destruct (lex_serialize v Hwf (repeat 32%N (Nat.min space 10)) []
              (all_ws_spaces _) ltac:(constructor)) as (t & Et & Lt).
  exists t. split; [exact Et|].
  unfold JSON_parse. specialize (Lt [] eq_refl). rewrite app_nil_r in Lt.
  rewrite Lt. cbn. rewrite app_nil_r. now apply parse_tokens_of.
Qed.

(** ** Keys and their order *)

Lemma str_eqb_eq (a b : jsstring) : str_eqb a b = true <-> a = b.
Proof.
  revert b. induction a as [|x a IH]; intros [|y b]; simpl;
    try (split; [discriminate | discriminate]); [tauto|].
  rewrite andb_true_iff, N.eqb_eq, IH. split.
  - intros [-> ->]. reflexivity.
  - intros [= -> ->]. auto.
Qed.

Lemma str_eqb_refl (a : jsstring) : str_eqb a a = true.
Proof. now apply str_eqb_eq. Qed.

Lemma str_eqb_neq (a b : jsstring) : str_eqb a b = false <-> a <> b.
Proof.
  rewrite <- str_eqb_eq. destruct (str_eqb a b); split; congruence.
Qed.

Lemma span_digits_all (s : jsstring) (ds : list N) :
  span_digits s = (ds, []) -> s = map digit_char ds /\ all_digits ds.
Proof.
  revert ds. induction s as [|c s IH]; intros ds; simpl.
  - intros [= <-]. split; [reflexivity | constructor].
  - destruct (is_digit c) eqn:Hc; [|discriminate].
    destruct (span_digits s) as [ds' rest]. intros [= <- ->].
    destruct (IH ds' eq_refl) as [-> Hall].
    unfold is_digit in Hc. apply andb_prop in Hc. destruct Hc as [H1 H2].
    apply N.leb_le in H1. apply N.leb_le in H2.
    split.
    + cbn [map]. f_equal. unfold digit_char. lia.
    + constructor; [lia | assumption].
Qed.

Lemma digits_value_bound (ds : list N) :
  all_digits ds -> (digits_value ds < 10 ^ N.of_nat (length ds))%N.
Proof.
  induction 1 as [|d ds Hd _ IH]; [reflexivity|].
  rewrite digits_value_cons.
  replace (N.of_nat (length (d :: ds))) with (N.succ (N.of_nat (length ds)))
    by (simpl length; lia).
  rewrite N.pow_succ_r'. nia.
Qed.

Lemma digits_value_inj (a : list N) :
  forall b, all_digits a -> all_digits b -> length a = length b ->
    digits_value a = digits_value b -> a = b.
Proof.
  induction a as [|x a IH]; intros [|y b] Ha Hb Hlen Hv;
    try discriminate; [reflexivity|].
  inversion Ha as [|? ? Hx Ha']; inversion Hb as [|? ? Hy Hb']; subst.
  injection Hlen as Hlen.
  rewrite !digits_value_cons, <- Hlen in Hv.
  pose proof (digits_value_bound a Ha') as Ba.
  pose proof (digits_value_bound b Hb') as Bb. rewrite <- Hlen in Bb.
  assert (x = y) by nia. subst y.
  f_equal. apply IH; try assumption. lia.
Qed.

Lemma digits_value_lower (d : N) (ds : list N) :
  (0 < d)%N -> (10 ^ N.of_nat (length ds) <= digits_value (d :: ds))%N.
Proof. intros H. rewrite digits_value_cons. nia. Qed.

Lemma canonical_digits_inj (d : N) (ds : list N) (d' : N) (ds' : list N) :
  all_digits (d :: ds) -> all_digits (d' :: ds') ->
  ((d =? 0)%N && negb (is_empty ds)) = false ->
  ((d' =? 0)%N && negb (is_empty ds')) = false ->
  digits_value (d :: ds) = digits_value (d' :: ds') ->
  d :: ds = d' :: ds'.
Proof.
  intros Ha Hb Ca Cb Hv.
  assert (Z0 : forall e es, all_digits (e :: es) ->
            ((e =? 0)%N && negb (is_empty es)) = false ->
            e = 0%N -> es = [] /\ digits_value (e :: es) = 0%N).
  { intros e es _ C ->. destruct es; [split; reflexivity | discriminate]. }
  destruct (N.eq_dec d 0) as [Hd | Hd]; destruct (N.eq_dec d' 0) as [Hd' | Hd'].
  - destruct (Z0 _ _ Ha Ca Hd) as [-> _].
    destruct (Z0 _ _ Hb Cb Hd') as [-> _]. congruence.
  - destruct (Z0 _ _ Ha Ca Hd) as [_ E]. rewrite E in Hv.
    pose proof (digits_value_lower d' ds' ltac:(lia)) as L.
    assert (0 < 10 ^ N.of_nat (length ds'))%N by (apply N.neq_0_lt_0, N.pow_nonzero; lia).
    lia.
  - destruct (Z0 _ _ Hb Cb Hd') as [_ E]. rewrite E in Hv.
    pose proof (digits_value_lower d ds ltac:(lia)) as L.
    assert (0 < 10 ^ N.of_nat (length ds))%N by (apply N.neq_0_lt_0, N.pow_nonzero; lia).
    lia.
  - apply digits_value_inj; try assumption.
    pose proof (digits_value_lower d ds ltac:(lia)) as La.
    pose proof (digits_value_lower d' ds' ltac:(lia)) as Lb.
    pose proof (digits_value_bound _ Ha) as Ua.
    pose proof (digits_value_bound _ Hb) as Ub.
    rewrite Hv in *.
    destruct (Nat.lt_trichotomy (length ds) (length ds')) as [L | [L | L]].
    + exfalso.
      assert (10 ^ N.of_nat (length (d :: ds)) <= 10 ^ N.of_nat (length ds'))%N
        by (apply N.pow_le_mono_r; [lia | simpl length; lia]).
      lia.
    + simpl. now f_equal.
    + exfalso.
      assert (10 ^ N.of_nat (length (d' :: ds')) <= 10 ^ N.of_nat (length ds))%N
        by (apply N.pow_le_mono_r; [lia | simpl length; lia]).
      lia.
Qed.

Lemma array_index_inj (k k' : jsstring) (n : N) :
  array_index k = Some n -> array_index k' = Some n -> k = k'.
Proof.
  unfold array_index. intros H H'.
  destruct (span_digits k) as [[|d ds] [|? ?]] eqn:E; try discriminate.
  destruct (span_digits k') as [[|d' ds'] [|? ?]] eqn:E'; try discriminate.
  apply span_digits_all in E. apply span_digits_all in E'.
  destruct E as [-> Ha]. destruct E' as [-> Hb].
  change (match ds with [] => true | _ :: _ => false end)
    with (is_empty ds) in H.
  change (match ds' with [] => true | _ :: _ => false end)
    with (is_empty ds') in H'.
  destruct (_ && _) eqn:C in H; [discriminate|].
  destruct (_ && _) eqn:C' in H'; [discriminate|].
  destruct (_ <? _)%N in H; [|discriminate].
  destruct (_ <? _)%N in H'; [|discriminate].
  injection H as H. injection H' as H'.
  f_equal. apply canonical_digits_inj; try assumption. congruence.
Qed.

Lemma comes_before_inv (k' k : jsstring) :
  comes_before k' k = false -> k' <> k ->
  comes_before k k' = true
  /\ forall k'', comes_before k' k'' = true -> comes_before k k'' = true.
Proof.
  unfold comes_before. intros H Hne.
  destruct (array_index k') as [a|] eqn:A, (array_index k) as [b|] eqn:B;
    try discriminate.
  - apply N.ltb_ge in H.
    assert (a <> b) by (intros ->; apply Hne; eapply array_index_inj; eauto).
    split; [apply N.ltb_lt; lia|].
    intros k''. destruct (array_index k'') as [c|]; [|reflexivity].
    rewrite !N.ltb_lt. lia.
  - split; [reflexivity|].
    intros k''. destruct (array_index k'') as [c|]; [discriminate|reflexivity].
Qed.

Lemma lookup_None (k : jsstring) (ps : list (jsstring * value)) :
  lookup k ps = None <-> ~ In k (keys ps).
Proof.
  induction ps as [|[k' a] ps IH]; simpl; [tauto|].
  destruct (str_eqb k' k) eqn:E.
  - apply str_eqb_eq in E. subst. split; [discriminate | tauto].
  - apply str_eqb_neq in E. rewrite IH. tauto.
Qed.

Lemma key_order_keys (ps qs : list (jsstring * value)) :
  keys ps = keys qs ->
  StronglySorted key_order ps -> StronglySorted key_order qs.
Proof.
  revert qs. induction ps as [|p ps IH]; intros [|q qs] E H;
    try discriminate; [constructor|].
  injection E as E1 E2. inversion H as [|? ? Hs Hf]; subst.
  constructor; [now apply IH|].
  rewrite Forall_forall in *. intros y Hy.
  assert (In (fst y) (keys ps))
    by (unfold keys in *; rewrite E2; now apply in_map).
  unfold keys in H0. apply in_map_iff in H0. destruct H0 as (x & Ex & Hx).
  specialize (Hf x Hx). unfold key_order in *. now rewrite <- E1, <- Ex.
Qed.

Lemma replace_property_keys (k : jsstring) (a : value) ps :
  keys (replace_property k a ps) = keys ps.
Proof.
  induction ps as [|[k' a'] ps IH]; simpl; [reflexivity|].
  destruct (str_eqb k' k); simpl; [reflexivity | now f_equal].
Qed.

Lemma insert_property_In (k : jsstring) (a : value) ps p :
  In p (insert_property k a ps) -> p = (k, a) \/ In p ps.
Proof.
  induction ps as [|[k' a'] ps IH]; simpl.
  - intros [<- | []]. now left.
  - destruct (comes_before k' k); simpl.
    + intros [<- | H]; [tauto | apply IH in H; tauto].
    + intros [<- | H]; [now left | now right].
Qed.

Lemma insert_property_sorted (k : jsstring) (a : value) ps :
  ~ In k (keys ps) -> StronglySorted key_order ps ->
  StronglySorted key_order (insert_property k a ps).
Proof.
  intros Hk H. induction H as [|[k' a'] ps Hs IH Hf]; simpl.
  - constructor; constructor.
  - assert (Hne : k' <> k) by (intros ->; apply Hk; left; reflexivity).
    assert (Hk' : ~ In k (keys ps)) by (intros X; apply Hk; right; exact X).
    destruct (comes_before k' k) eqn:C.
    + constructor; [now apply IH|].
      rewrite Forall_forall in *. intros p Hp.
      apply insert_property_In in Hp. destruct Hp as [-> | Hp]; [|auto].
      split; [exact Hne | exact C].
    + destruct (comes_before_inv k' k C Hne) as [C1 C2].
      constructor; [constructor; assumption|].
      constructor; [split; [simpl; congruence | exact C1]|].
      rewrite Forall_forall in *. intros p Hp. specialize (Hf p Hp).
      destruct Hf as [_ Hb]. split.
      * simpl. intros ->. apply Hk'. now apply in_map.
      * apply C2. exact Hb.
Qed.

Lemma define_property_sorted (k : jsstring) (a : value) ps :
  StronglySorted key_order ps ->
  StronglySorted key_order (define_property k a ps).
Proof.
  intros H. unfold define_property. destruct (lookup k ps) eqn:E.
  - eapply key_order_keys; [|exact H]. symmetry. apply replace_property_keys.
  - apply insert_property_sorted; [now apply lookup_None | exact H].
Qed.

Lemma insert_property_last (k : jsstring) (a : value) ps :
  Forall (fun p => comes_before (fst p) k = true) ps ->
  insert_property k a ps = ps ++ [(k, a)].
Proof.
  induction 1 as [|[k' a'] ps Hp _ IH]; simpl; [reflexivity|].
  simpl in Hp. rewrite Hp. now f_equal.
Qed.

Lemma sorted_app_inv (ps : list (jsstring * value)) p qs :
  StronglySorted key_order (ps ++ p :: qs) ->
  Forall (fun q => key_order q p) ps.
Proof.
  induction ps as [|x ps IH]; simpl; intros H; [constructor|].
  inversion H as [|? ? Hs Hf]; subst. constructor; [|now apply IH].
  rewrite Forall_forall in Hf. apply Hf. apply in_or_app. right. now left.
Qed.

Lemma fold_define_sorted (qs : list (jsstring * value)) :
  forall ps, StronglySorted key_order (ps ++ qs) ->
    fold_left define qs ps = ps ++ qs.
Proof.
  induction qs as [|[k a] qs IH]; intros ps H; simpl.
  - now rewrite app_nil_r.
  - pose proof (sorted_app_inv ps (k, a) qs H) as Hp.
    assert (E : define_property k a ps = ps ++ [(k, a)]).
    { unfold define_property.
      assert (L : lookup k ps = None).
      { apply lookup_None. unfold keys. rewrite in_map_iff.
        intros (q & Eq & Hq). rewrite Forall_forall in Hp.
        destruct (Hp q Hq) as [Hne _]. simpl in Hne. congruence. }
      rewrite L. apply insert_property_last.
      eapply Forall_impl; [|exact Hp]. intros q [_ Hq]. exact Hq. }
    rewrite E. rewrite IH; rewrite <- app_assoc; [reflexivity | exact H].
Qed.

Lemma fromEntries_sorted (ps : list (jsstring * value)) :
  StronglySorted key_order ps -> fromEntries ps = ps.
Proof. intros H. apply (fold_define_sorted ps []). exact H. Qed.

(** ** What JSON.parse builds is well formed *)

Lemma round_Q_canonical (v : Q) :
  (0 <= v)%Q -> snd (round_Q v) <= 971 ->
  canonical (fst (round_Q v)) (snd (round_Q v)).
Proof.
  intros Hv. unfold round_Q. apply round_pos_canonical; [|reflexivity].
  assert (H : (0 <= Qred v)%Q) by (rewrite Qred_correct; exact Hv).
  unfold Qle in H. simpl in H. lia.
Qed.

Lemma number_of_Q_ok (neg : bool) (v : Q) :
  (0 <= v)%Q -> number_ok (number_of_Q neg v).
Proof.
  intros Hv. unfold number_of_Q.
  pose proof (round_Q_canonical v Hv) as H.
  destruct (round_Q v) as [m e]. cbn [fst snd] in H.
  destruct (Z.ltb_spec 971 e); simpl; [trivial | apply H; lia].
Qed.

Lemma decimal_Q_nonneg (s j : Z) : 0 <= s -> (0 <= decimal_Q s j)%Q.
Proof.
  intros Hs. unfold decimal_Q. apply Qmult_le_0_compat.
  - unfold Qle. simpl. lia.
  - apply Qpower_0_le. discriminate.
Qed.

Lemma number_of_decimal_ok (neg : bool) (ds : list N) (j : Z) :
  number_ok (number_of_decimal neg ds j).
Proof.
  unfold number_of_decimal. apply number_of_Q_ok, decimal_Q_nonneg. lia.
Qed.


Lemma lex_magnitude_ok (neg : bool) (s : jsstring) x rest :
  lex_magnitude neg s = Some (x, rest) -> number_ok x.
Proof.
  unfold lex_magnitude.
  destruct (span_digits s) as [[|d ds] s1]; [discriminate|].
  destruct (_ && _); [discriminate|].
  destruct (lex_fraction s1) as [[fs s2]|]; [|discriminate].
  destruct (lex_exponent s2) as [[ex s3]|]; [|discriminate].
  intros [= <- _]. apply number_of_decimal_ok.
Qed.

Lemma lex_number_ok (s : jsstring) x rest :
  lex_number s = Some (x, rest) -> number_ok x.
Proof.
  unfold lex_number. destruct s as [|c t]; [discriminate|].
  destruct (c =? 45)%N; apply lex_magnitude_ok.
Qed.

Lemma push_ok (t : token) r ts :
  token_ok t ->
  (forall ts', r = Some ts' -> Forall token_ok ts') ->
  push t r = Some ts -> Forall token_ok ts.
Proof.
  intros Ht Hr. destruct r as [ts'|]; simpl; [|discriminate].
  intros [= <-]. constructor; [exact Ht | now apply Hr].
Qed.

Lemma lex_step_ok (k : jsstring -> option (list token)) (s : jsstring) ts :
  (forall r ts', k r = Some ts' -> Forall token_ok ts') ->
  lex_step k s = Some ts -> Forall token_ok ts.
Proof.
  intros Hk. unfold lex_step. destruct s as [|c rest].
  - intros [= <-]. constructor.
  - destruct (is_ws c); [apply Hk|].
    repeat (match goal with
            | |- (if ?b then _ else _) = _ -> _ =>
                destruct b; [apply push_ok; [exact I | apply Hk]|]
            end).
    destruct (c =? 34)%N.
    { destruct (lex_string rest) as [[str rest']|]; [|discriminate].
      apply push_ok; [exact I | apply Hk]. }
    destruct ((c =? 45)%N || is_digit c).
    { destruct (lex_number (c :: rest)) as [[x rest']|] eqn:E; [|discriminate].
      apply push_ok; [apply (lex_number_ok _ _ _ E) | apply Hk]. }
    repeat (match goal with
            | |- match strip_prefix ?p ?s with _ => _ end = _ -> _ =>
                destruct (strip_prefix p s);
                [apply push_ok; [exact I | apply Hk]|]
            end).
    discriminate.
Qed.

Lemma lex_ok (fuel : nat) :
  forall s ts, lex fuel s = Some ts -> Forall token_ok ts.
Proof.
  induction fuel as [|fuel IH]; intros s ts; cbn [lex]; [discriminate|].
  apply lex_step_ok. intros r ts'. apply IH.
Qed.

Lemma replace_property_Forall (P : value -> Prop) k a ps :
  P a -> Forall (fun p => P (snd p)) ps ->
  Forall (fun p => P (snd p)) (replace_property k a ps).
Proof.
  intros Ha H. induction H as [|[k' a'] ps Hp Hps IH]; simpl; [constructor|].
  destruct (str_eqb k' k); constructor; auto.
Qed.

Lemma insert_property_Forall (P : value -> Prop) k a ps :
  P a -> Forall (fun p => P (snd p)) ps ->
  Forall (fun p => P (snd p)) (insert_property k a ps).
Proof.
  intros Ha H. induction H as [|[k' a'] ps Hp Hps IH]; simpl.
  - constructor; [exact Ha | constructor].
  - destruct (comes_before k' k); constructor; auto.
Qed.

Lemma define_property_ok (k : jsstring) (a : value) ps :
  well_formed a -> well_formed (VObject ps) ->
  well_formed (VObject (define_property k a ps)).
Proof.
  rewrite !well_formed_object. intros Ha [Hs Hf]. split.
  - now apply define_property_sorted.
  - unfold define_property. destruct (lookup k ps).
    + now apply replace_property_Forall.
    + now apply insert_property_Forall.
Qed.

Lemma begin_value_ok (stack : list frame) (t : token) st :
  Forall frame_ok stack -> token_ok t ->
  begin_value stack t = Some st -> state_ok st.
Proof.
  intros Hs Ht. destruct t; simpl; try discriminate; intros [= <-]; simpl;
    auto.
Qed.

Lemma step_ok (st : parser_state) (t : token) st' :
  state_ok st -> token_ok t -> step st t = Some st' -> state_ok st'.
Proof.
  intros Hst Ht. destruct st as [stack|stack|stack|done stack|done k stack|v stack];
    cbn [step].
  - now apply begin_value_ok.
  - assert (Hs : Forall frame_ok (InArray [] :: stack))
      by (constructor; [constructor | exact Hst]).
    destruct t; try (now apply begin_value_ok).
    intros [= <-]. split; [exact I | exact Hst].
  - destruct t; try discriminate; intros [= <-];
      (split; [split; [constructor | exact I] | exact Hst]).
  - destruct t; try discriminate; intros [= <-]. exact Hst.
  - destruct t; try discriminate; intros [= <-]. destruct Hst as [H1 H2].
    simpl. constructor; assumption.
  - destruct Hst as [Hv Hs]. destruct stack as [|[done | done k] stack];
      [discriminate | |]; inversion Hs as [|? ? Hf Hs']; subst;
      simpl in Hf; destruct t; try discriminate; intros [= <-].
    + split; [|exact Hs']. apply well_formed_array.
      apply Forall_app. split; [now apply Forall_rev|].
      constructor; [exact Hv | constructor].
    + constructor; [|exact Hs']. simpl. constructor; assumption.
    + split; [|exact Hs']. now apply define_property_ok.
    + split; [|exact Hs']. now apply define_property_ok.
Qed.

Lemma run_ok (ts : list token) :
  forall st st', state_ok st -> Forall token_ok ts ->
    run st ts = Some st' -> state_ok st'.
Proof.
  induction ts as [|t ts IH]; intros st st' Hst Hts; simpl.
  - now intros [= <-].
  - inversion Hts; subst. destruct (step st t) as [st1|] eqn:E; [|discriminate].
    apply IH; [eapply step_ok; eauto | assumption].
Qed.

Lemma JSON_parse_well_formed (text : jsstring) (v : value) :
  JSON_parse text = Some v -> well_formed v.
Proof.
  unfold JSON_parse, JSON_lex, parse_tokens.
  destruct (lex _ text) as [ts|] eqn:L; [|discriminate].
  apply lex_ok in L.
  destruct (run (ExpectValue []) ts) as [st|] eqn:R; [|discriminate].
  apply run_ok in R; [|constructor | exact L].
  destruct st as [| | | | |v' [|]]; try discriminate.
  intros [= <-]. apply R.
Qed.

(** ** The value read back is deeply equal to the value printed *)

Lemma lookup_sorted (ps : list (jsstring * value)) (k : jsstring) (x : value) :
  StronglySorted key_order ps -> In (k, x) ps -> lookup k ps = Some x.
Proof.
  intros H. induction H as [|[k' a'] ps Hs IH Hf]; simpl; [tauto|].
  intros [[= -> ->] | Hin].
  - now rewrite str_eqb_refl.
  - rewrite Forall_forall in Hf. destruct (Hf _ Hin) as [Hne _].
    simpl in Hne. apply str_eqb_neq in Hne. rewrite Hne. now apply IH.
Qed.

Lemma keys_member (ps : list (jsstring * value)) :
  keys (map member ps) = keys ps.
Proof. unfold keys. rewrite map_map. reflexivity. Qed.

Lemma reparsed_object (ps : list (jsstring * value)) :
  StronglySorted key_order ps ->
  reparsed (VObject ps) = VObject (map member ps).
Proof.
  intros H. cbn [reparsed]. f_equal. apply fromEntries_sorted.
  eapply key_order_keys; [|exact H]. symmetry. apply keys_member.
Qed.

Lemma number_eqb_unsigned_zero (x : number) :
  is_finite x = true -> number_eqb (unsigned_zero x) x = true.
Proof.
  destruct x as [|neg|neg m e]; try discriminate. intros _. simpl.
  destruct (Z.eqb_spec m 0) as [-> | Hm]; simpl; [reflexivity|].
  apply Z.eqb_neq in Hm. rewrite Hm. simpl.
  now rewrite Bool.eqb_reflx, !Z.eqb_refl.
Qed.

Lemma deep_equal_reparsed (v : value) :
  well_formed v -> all_finite v = true -> deep_equal (reparsed v) v = true.
Proof.
  induction v as [| |b|x|s|es IH|ps IH|b] using value_ind;
    intros Hwf Hfin; try contradiction.
  - reflexivity.
  - simpl. apply Bool.eqb_reflx.
  - simpl in Hfin. cbn [reparsed]. rewrite Hfin. cbn [deep_equal].
    now apply number_eqb_unsigned_zero.
  - simpl. apply str_eqb_refl.
  - apply well_formed_array in Hwf. cbn [all_finite] in Hfin.
    cbn [reparsed deep_equal].
    induction es as [|e es IHes]; [reflexivity|].
    inversion IH as [|? ? He Hes]; inversion Hwf as [|? ? We Wes]; subst.
    cbn [forallb] in Hfin. apply andb_prop in Hfin. destruct Hfin as [Fe Fes].
    cbn [map]. rewrite (He We Fe). cbn [andb]. now apply IHes.
  - pose proof Hwf as Hwf'. apply well_formed_object in Hwf'.
    destruct Hwf' as [Hs Hf].
    rewrite (reparsed_object ps Hs). cbn [deep_equal all_finite] in *.
    rewrite length_map, Nat.eqb_refl. cbn [andb].
    assert (G : forall qs, incl qs ps ->
      (fix all (ps0 : list (jsstring * value)) : bool :=
         match ps0 with
         | [] => true
         | (k, x) :: ps' =>
             match lookup k ps with
             | Some y => deep_equal x y
             | None => false
             end && all ps'
         end) (map member qs) = true).
    { induction qs as [|[k x] qs IHqs]; intros Hincl; [reflexivity|].
      cbn [map member fst snd].
      assert (Hin : In (k, x) ps) by (apply Hincl; now left).
      rewrite (lookup_sorted ps k x Hs Hin).
      rewrite Forall_forall in IH, Hf.
      rewrite forallb_forall in Hfin.
      pose proof (IH _ Hin (Hf _ Hin) (Hfin _ Hin)) as Hx. cbn [snd] in Hx.
      rewrite Hx. cbn [andb].
      apply IHqs. intros q Hq. apply Hincl. now right. }
    apply G, incl_refl.
Qed.

(** Parsing the pretty-printed form of a parsed value. *)
Lemma parse_stringify_parsed (text : jsstring) (v : value) (space : nat) :
  JSON_parse text = Some v ->
  exists data, JSON_stringify v space = Some data
    /\ JSON_parse data = Some (reparsed v)
    /\ (all_finite v = true -> deep_equal (reparsed v) v = true).
Proof.
  intros H. apply JSON_parse_well_formed in H.
  destruct (parse_stringify v space H) as (data & E1 & E2).
  exists data. split; [exact E1 | split; [exact E2|]].
  now apply deep_equal_reparsed.
Qed.

Section Curl.

Variable host : Host.
Variable fetch : jsstring -> RequestInit.t -> completion Response.t.

(** Unfolds the two reads of the body down to the stream. *)
Ltac read_once :=
  unfold read_body, Response_json, Response_text, consumeBody.

Lemma read_body_json (response : Response.t) (t : jsstring) (parsed : value) :
  Response.body response = Normal t -> JSON_parse t = Some parsed ->
  read_body host response = Normal (JSON_stringify parsed 2).
Proof.
  intros Hb Hp. read_once. now rewrite Hb, Hp.
Qed.

Lemma read_body_not_json (response : Response.t) (t : jsstring) :
  Response.body response = Normal t -> JSON_parse t = None ->
  read_body host response
  = Throw (ErrorInstance (js "TypeError")
             (js "body used already for: " ++ Response.url response)).
Proof.
  intros Hb Hp. read_once. now rewrite Hb, Hp.
Qed.

Lemma read_body_failed (response : Response.t) (e : thrown) :
  Response.body response = Throw e ->
  read_body host response
  = Throw (ErrorInstance (js "TypeError")
             (js "body used already for: " ++ Response.url response)).
Proof.
  intros Hb. read_once. now rewrite Hb.
Qed.

Lemma curl_tool_resolved (req : CurlRequest.t) (response : Response.t) :
  fetch (fst (outbound req)) (snd (outbound req)) = Normal response ->
  snd (curl_tool host fetch req)
  = match read_body host response with
    | Normal responseText =>
        Normal (success (JSON_stringify
                  (CurlResponse_value (envelope response responseText)) 2))
    | Throw error =>
        Normal (failure (js "Error making request: " ++ errorMessage error))
    end.
Proof.
  intros Hf. unfold curl_tool, respond. rewrite Hf. cbn [bind].
  destruct (read_body host response); reflexivity.
Qed.

(** C1 (the code departs from the claim).  The claim: a response whose body
    is not valid JSON yields [data] equal to the raw text, with no error.
    The code: [response.json()] has consumed the body, so the fallback
    [response.text()] of line 82 rejects with "body used already", and the
    outer [catch] returns the failure "Error making request: body used
    already for: <url>".  The raw text never reaches [data]. *)
Theorem C1_raw_text_fallback_rejects
  (req : CurlRequest.t) (response : Response.t) (t : jsstring) :
  fetch (fst (outbound req)) (snd (outbound req)) = Normal response ->
  Response.body response = Normal t ->
  JSON_parse t = None ->
  snd (curl_tool host fetch req)
  = Normal (failure (js "Error making request: body used already for: "
                     ++ Response.url response)).
Proof.
  intros Hf Hb Hp. rewrite (curl_tool_resolved req response Hf).
  rewrite (read_body_not_json response t Hb Hp). reflexivity.
Qed.

(** C2 (amended).  For every transport-level success whose body is valid
    JSON text, [data] is [JSON.stringify(parsed, null, 2)] of the parsed
    body, and the result is the success envelope around it; parsing [data]
    again gives the parsed body with every number that is not finite
    replaced by [null] and every zero unsigned, which is deep-equal to the
    parsed body whenever all its numbers are finite. *)
Theorem C2_data_is_reserialization
  (req : CurlRequest.t) (response : Response.t) (t : jsstring)
  (parsed : value) :
  fetch (fst (outbound req)) (snd (outbound req)) = Normal response ->
  Response.body response = Normal t ->
  JSON_parse t = Some parsed ->
  exists data,
    JSON_stringify parsed 2 = Some data
    /\ snd (curl_tool host fetch req)
       = Normal (success (JSON_stringify
                   (CurlResponse_value (envelope response (Some data))) 2))
    /\ JSON_parse data = Some (reparsed parsed)
    /\ (all_finite parsed = true ->
        deep_equal (reparsed parsed) parsed = true).
Proof.
  intros Hf Hb Hp.
  destruct (parse_stringify_parsed t parsed 2 Hp) as (data & E1 & E2 & E3).
  exists data. split; [exact E1 | split; [|split; assumption]].
  rewrite (curl_tool_resolved req response Hf).
  rewrite (read_body_json response t parsed Hb Hp), E1. reflexivity.
Qed.

(** C5.  With method GET no body is attached to the outbound call,
    whatever [body] is; with another method a string body is sent
    unchanged, and any other supplied body is sent as its JSON
    serialization. *)
Theorem C5_outbound_body (req : CurlRequest.t) :
  (CurlRequest.method req = GET ->
   RequestInit.body (snd (outbound req)) = None)
  /\ (CurlRequest.method req <> GET ->
      forall s, CurlRequest.body req = VString s ->
        RequestInit.body (snd (outbound req)) = Some s)
  /\ (CurlRequest.method req <> GET ->
      CurlRequest.body req <> VUndefined ->
      (forall s, CurlRequest.body req <> VString s) ->
      RequestInit.body (snd (outbound req))
      = JSON_stringify (CurlRequest.body req) 0).
Proof.
  unfold outbound, options. cbn [snd RequestInit.body].
  destruct req as [u m h b t]. cbn [CurlRequest.method CurlRequest.body].
  split; [|split].
  - intros ->. reflexivity.
  - intros Hm s ->. destruct m; try reflexivity. congruence.
  - intros Hm Hb Hs.
    destruct m; try congruence;
      destruct b; try reflexivity; try congruence; exfalso; eapply Hs; eauto.
Qed.

(** C6.  When [fetch] rejects, the handler returns the failure envelope
    "Error making request: <message of the error>"; when reading the body
    fails after [fetch] resolved, it returns a failure envelope with the
    same prefix; and in every case the handler returns a result: no thrown
    value leaves it. *)
Theorem C6_transport_failure (req : CurlRequest.t) :
  (forall error,
     fetch (fst (outbound req)) (snd (outbound req)) = Throw error ->
     snd (curl_tool host fetch req)
     = Normal (failure (js "Error making request: " ++ errorMessage error)))
  /\ (forall response error,
        fetch (fst (outbound req)) (snd (outbound req)) = Normal response ->
        Response.body response = Throw error ->
        exists reason,
          snd (curl_tool host fetch req)
          = Normal (failure (js "Error making request: " ++ reason)))
  /\ (exists result, snd (curl_tool host fetch req) = Normal result).
Proof.
  split; [|split].
  - intros error Hf. unfold curl_tool. rewrite Hf. reflexivity.
  - intros response error Hf Hb. eexists.
    rewrite (curl_tool_resolved req response Hf).
    rewrite (read_body_failed response error Hb). reflexivity.
  - unfold curl_tool. destruct (bind _ _); eexists; reflexivity.
Qed.

(** C7.  The outbound headers are the caller's header map as it is when
    one is supplied, and otherwise exactly the two entries
    [Content-Type: application/json] and [Accept: application/json]. *)
Theorem C7_outbound_headers (req : CurlRequest.t) :
  (forall h, CurlRequest.headers req = Some h ->
     RequestInit.headers (snd (outbound req)) = h)
  /\ (CurlRequest.headers req = None ->
      RequestInit.headers (snd (outbound req))
      = [(js "Content-Type", js "application/json");
         (js "Accept", js "application/json")]).
Proof.
  unfold outbound, options. cbn [snd RequestInit.headers].
  split; [intros h -> | intros ->]; reflexivity.
Qed.

(** C8 (the code departs from the claim).  The claim: every transport-level
    success, whatever its HTTP status, yields a success envelope with
    [status], [statusText] and [headers] of the response.  The code does so
    exactly when the body is valid JSON text, whatever the status; a body
    that is not JSON (the usual 4xx/5xx page) makes the handler fail, by the
    defect of C1. *)
Theorem C8_success_only_for_json_body
  (req : CurlRequest.t) (response : Response.t) (t : jsstring) :
  fetch (fst (outbound req)) (snd (outbound req)) = Normal response ->
  Response.body response = Normal t ->
  exists result,
    snd (curl_tool host fetch req) = Normal result
    /\ (isError result = false <-> JSON_parse t <> None)
    /\ (isError result = false ->
        exists data,
          text result
          = JSON_stringify
              (CurlResponse_value
                 {| CurlResponse.status := Response.status response;
                    CurlResponse.statusText := Response.statusText response;
                    CurlResponse.headers :=
                      fromEntries (Response.headers response);
                    CurlResponse.data := data |}) 2).
Proof.
  intros Hf Hb. rewrite (curl_tool_resolved req response Hf).
  destruct (JSON_parse t) as [parsed|] eqn:Hp.
  - rewrite (read_body_json response t parsed Hb Hp).
    eexists. split; [reflexivity|]. split.
    + split; [discriminate | reflexivity].
    + intros _. eexists. reflexivity.
  - rewrite (read_body_not_json response t Hb Hp).
    eexists. split; [reflexivity|]. split.
    + split; [discriminate | congruence].
    + discriminate.
Qed.

(** C10.  With a method other than GET, a body that is the JSON value
    [null] counts as supplied and is sent as the four-character string
    "null"; an omitted body ([undefined]) attaches nothing, and it is the
    only value that is not a function to do so. *)
Theorem C10_null_body_is_sent (req : CurlRequest.t) :
  CurlRequest.method req <> GET ->
  (CurlRequest.body req = VNull ->
   RequestInit.body (snd (outbound req)) = Some (js "null"))
  /\ (CurlRequest.body req = VUndefined ->
      RequestInit.body (snd (outbound req)) = None)
  /\ (str_eqb (typeof (CurlRequest.body req)) (js "function") = false ->
      RequestInit.body (snd (outbound req)) = None ->
      CurlRequest.body req = VUndefined).
Proof.
  unfold outbound, options. cbn [snd RequestInit.body].
  destruct req as [u m h b t]. cbn [CurlRequest.method CurlRequest.body].
  intros Hm.
  assert (E : is_GET m = false) by (destruct m; try reflexivity; congruence).
  rewrite E. cbn [negb andb]. split; [|split].
  - intros ->. reflexivity.
  - intros ->. reflexivity.
  - intros Hf. destruct b as [| |b|x|s|es|ps|[| | | | | |id]];
      try reflexivity; try discriminate.
Qed.

End Curl.

Section ParseJson.

Variable host : Host.


Lemma parse_json_tool_parsed (json : jsstring) (path : option jsstring)
  (data : value) :
  JSON_parse json = Some data ->
  parse_json_tool host json path
  = match extract host data path with
    | Throw e => Normal (extraction_failure path e)
    | Normal result => Normal (success (result_text host result))
    end.
Proof.
  intros H. unfold parse_json_tool, JSON_parse_or_throw. rewrite H.
  cbn [bind]. destruct (extract host data path); reflexivity.
Qed.



Lemma chain_get_absent (depth : nat) (receiver : value) (key : jsstring) :
  (forall o, intrinsic_property host o key = None) ->
  forall b, chain_get depth host receiver key b = Normal VUndefined.
Proof.
  intros Hn. induction depth as [|depth IH]; intros b; cbn [chain_get];
    [reflexivity|].
  destruct b as [o|]; [|reflexivity]. rewrite Hn. apply IH.
Qed.




(** C9.  On success the text is [JSON.stringify(result, null, 2)] for an
    array or an object, and the plain text of a primitive otherwise: a
    string as it is, without quotes, a number in its decimal form, [true],
    [false], [null], [undefined].  Path "a.b" against the document
    {"a":{"b":42}} gives the text 42. *)
Theorem C9_result_text (json : jsstring) (path : option jsstring)
  (data result : value) :
  JSON_parse json = Some data ->
  extract host data path = Normal result ->
  parse_json_tool host json path = Normal (success (result_text host result))
  /\ (forall es, result = VArray es ->
        result_text host result = JSON_stringify (VArray es) 2)
  /\ (forall ps, result = VObject ps ->
        result_text host result = JSON_stringify (VObject ps) 2)
  /\ (forall s, result = VString s -> result_text host result = Some s)
  /\ (forall x, result = VNumber x ->
        result_text host result = Some (number_to_string x))
  /\ (forall b, result = VBool b ->
        result_text host result = Some (if b then js "true" else js "false"))
  /\ (result = VNull -> result_text host result = Some (js "null"))
  /\ (result = VUndefined -> result_text host result = Some (js "undefined"))
  /\ parse_json_tool host (json_text "{'a':{'b':42}}") (Some (js "a.b"))
     = Normal (success (Some (js "42"))).
Proof.
  intros Hp Hx. split.
  { rewrite (parse_json_tool_parsed json path data Hp). now rewrite Hx. }
  do 7 (split; [intros; subst; reflexivity|]).
  vm_compute. reflexivity.
Qed.

End ParseJson.

(** C2, counterexample.  The body [1e400] is valid JSON text and parses to
    [Infinity]; [data] is then "null", which parses to [null], and [null]
    is not deep-equal to [Infinity]. *)
Lemma C2_overflow_not_round_tripped :
  JSON_parse (js "1e400") = Some (VNumber (Infinity false))
  /\ read_body example_host (example_response 200 "OK" (js "1e400"))
     = Normal (Some (js "null"))
  /\ JSON_parse (js "null") = Some VNull
  /\ deep_equal VNull (VNumber (Infinity false)) = false.
Proof. vm_compute. repeat split. Qed.



(** ** Witnesses: the theorems at concrete inputs *)

Lemma C1_witness :
  snd (curl_tool example_host (answer (example_response 200 "OK" (js "hello")))
         (plain_request GET VUndefined))
  = Normal (failure (js "Error making request: body used already for: "
                     ++ js "http://example.com/")).
Proof.
  apply (C1_raw_text_fallback_rejects example_host
           (answer (example_response 200 "OK" (js "hello")))
           (plain_request GET VUndefined)
           (example_response 200 "OK" (js "hello")) (js "hello"));
    reflexivity.
Defined.

Lemma C2_witness :
  exists data,
    JSON_stringify sample_value 2 = Some data
    /\ snd (curl_tool example_host (answer (example_response 200 "OK" sample_text))
              (plain_request GET VUndefined))
       = Normal (success (JSON_stringify
                   (CurlResponse_value
                      (envelope (example_response 200 "OK" sample_text)
                         (Some data))) 2))
    /\ JSON_parse data = Some (reparsed sample_value)
    /\ (all_finite sample_value = true ->
        deep_equal (reparsed sample_value) sample_value = true).
Proof.
  apply (C2_data_is_reserialization example_host
           (answer (example_response 200 "OK" sample_text))
           (plain_request GET VUndefined)
           (example_response 200 "OK" sample_text) sample_text sample_value);
    [reflexivity | reflexivity | vm_compute; reflexivity].
Defined.



Lemma C5_witness :
  RequestInit.body (snd (outbound (plain_request GET (VString (js "x")))))
  = None
  /\ RequestInit.body (snd (outbound (plain_request POST (VString (js "x")))))
     = Some (js "x")
  /\ RequestInit.body
       (snd (outbound (plain_request PUT (VArray [VBool true; VNull]))))
     = JSON_stringify (VArray [VBool true; VNull]) 0.
Proof.
  split; [|split].
  - apply (C5_outbound_body (plain_request GET (VString (js "x")))).
    reflexivity.
  - apply (C5_outbound_body (plain_request POST (VString (js "x"))));
      [discriminate | reflexivity].
  - apply (C5_outbound_body (plain_request PUT (VArray [VBool true; VNull])));
      [discriminate | discriminate | discriminate].
Defined.

Lemma C6_witness :
  snd (curl_tool example_host
         (refuse (ErrorInstance (js "FetchError") (js "socket hang up")))
         (plain_request GET VUndefined))
  = Normal (failure (js "Error making request: " ++ js "socket hang up")).
Proof.
  apply (proj1 (C6_transport_failure example_host
                  (refuse (ErrorInstance (js "FetchError")
                             (js "socket hang up")))
                  (plain_request GET VUndefined))
           (ErrorInstance (js "FetchError") (js "socket hang up"))).
  reflexivity.
Defined.

Lemma C7_witness :
  RequestInit.headers (snd (outbound (plain_request GET VUndefined)))
  = [(js "Content-Type", js "application/json");
     (js "Accept", js "application/json")]
  /\ RequestInit.headers (snd (outbound request_with_headers))
     = [(js "X-Token", js "t")].
Proof.
  split.
  - apply (C7_outbound_headers (plain_request GET VUndefined)). reflexivity.
  - apply (C7_outbound_headers request_with_headers). reflexivity.
Defined.

Lemma C8_witness :
  exists result,
    snd (curl_tool example_host
           (answer (example_response 404 "Not Found" (js "<h1>Not Found</h1>")))
           (plain_request GET VUndefined)) = Normal result
    /\ isError result = true.
Proof.
  destruct (C8_success_only_for_json_body example_host
              (answer (example_response 404 "Not Found"
                         (js "<h1>Not Found</h1>")))
              (plain_request GET VUndefined)
              (example_response 404 "Not Found" (js "<h1>Not Found</h1>"))
              (js "<h1>Not Found</h1>") eq_refl eq_refl)
    as (result & E & Hiff & _).
  exists result. split; [exact E|].
  destruct (isError result); [reflexivity|].
  exfalso. apply (proj1 Hiff eq_refl). vm_compute. reflexivity.
Defined.

Lemma C9_witness :
  parse_json_tool example_host sample_text (Some (js "a"))
  = Normal (success (result_text example_host
                       (VObject [(js "b", VNumber (number_of_Z 42))]))).
Proof.
  apply (C9_result_text example_host sample_text (Some (js "a")) sample_value
           (VObject [(js "b", VNumber (number_of_Z 42))]));
    vm_compute; reflexivity.
Defined.

Lemma C10_witness :
  RequestInit.body (snd (outbound (plain_request POST VNull)))
  = Some (js "null")
  /\ RequestInit.body (snd (outbound (plain_request DELETE VUndefined)))
     = None.
Proof.
  split.
  - apply (C10_null_body_is_sent (plain_request POST VNull));
      [discriminate | reflexivity].
  - apply (C10_null_body_is_sent (plain_request DELETE VUndefined));
      [discriminate | reflexivity].
Defined.

(* ================================================================== *)
(** * Part III: further properties of the handlers *)
(* ================================================================== *)

(** ** Members of the document *)

Lemma own_property_nullish (v : value) (key : jsstring) (x : value) :
  own_property v key = Some x -> is_nullish v = false.
Proof. destruct v; simpl; congruence. Qed.

Lemma Get_own (host : Host) (v : value) (key : jsstring) (x : value) :
  own_property v key = Some x -> Get host v key = Normal x.
Proof.
  intros H. unfold Get. rewrite (own_property_nullish v key x H). now rewrite H.
Qed.

Lemma traverse_own (host : Host) (parts : list jsstring) :
  forall v x, own_path v parts = Some x -> traverse host v parts = Normal x.
Proof.
  induction parts as [|part parts IH]; intros v x; cbn [own_path traverse].
  - now intros [= ->].
  - destruct (own_property v part) as [y|] eqn:E; [|discriminate].
    intros H. rewrite (own_property_nullish v part y E), (Get_own host v part y E).
    cbn [bind]. now apply IH.
Qed.

Lemma result_text_defined (host : Host) (v : value) :
  exists t, result_text host v = Some t.
Proof.
  unfold result_text.
  destruct v as [| |b|n|s|es|ps|[| | | | | |id]]; cbn; eexists; reflexivity.
Qed.

(** ** Decimal indices *)

Lemma decimal_head (n : N) :
  exists c t, decimal n = c :: t /\ is_digit c = true.
Proof.
  unfold decimal. pose proof (to_digits_all n) as Ha.
  destruct (to_digits n) as [|d ds] eqn:E; [now apply to_digits_nonempty in E|].
  inversion Ha; subst. exists (digit_char d), (map digit_char ds).
  split; [reflexivity | now apply is_digit_char].
Qed.

Lemma decimal_not_length (n : N) : str_eqb (decimal n) (js "length") = false.
Proof.
  destruct (decimal_head n) as (c & t & -> & Hc).
  cbn. destruct (N.eqb_spec c 108) as [-> | _]; [discriminate | reflexivity].
Qed.

Lemma array_index_decimal (n : N) :
  (n < 4294967295)%N -> array_index (decimal n) = Some n.
Proof.
  intros Hn. unfold array_index, decimal.
  rewrite <- (app_nil_r (map digit_char (to_digits n))).
  rewrite span_digits_chars by (apply to_digits_all || exact I).
  pose proof (to_digits_value n) as Hv.
  destruct (to_digits n) as [|d ds] eqn:E; [now apply to_digits_nonempty in E|].
  rewrite Hv. apply N.ltb_lt in Hn. rewrite Hn.
  destruct (N.eqb_spec d 0) as [-> | Hd]; [|reflexivity].
  destruct ds as [|d' ds]; [reflexivity|]. exfalso.
  destruct (N.eq_dec n 0) as [-> | Hn0]; [discriminate E|].
  destruct (to_digits_head n ltac:(lia)) as (d1 & ds1 & E1 & Hd1).
  rewrite E in E1. injection E1 as <- _. lia.
Qed.

Lemma own_property_index (es : list value) (i : nat) :
  (N.of_nat i < 4294967295)%N ->
  own_property (VArray es) (decimal (N.of_nat i)) = nth_error es i.
Proof.
  intros Hi. cbn [own_property].
  rewrite decimal_not_length, (array_index_decimal _ Hi).
  now rewrite Nat2N.id.
Qed.

Lemma own_property_code_unit (s : jsstring) (i : nat) :
  (N.of_nat i < 4294967295)%N ->
  own_property (VString s) (decimal (N.of_nat i))
  = option_map (fun c => VString [c]) (nth_error s i).
Proof.
  intros Hi. cbn [own_property].
  rewrite decimal_not_length, (array_index_decimal _ Hi).
  rewrite Nat2N.id. now destruct (nth_error s i).
Qed.

(** ** [Object.fromEntries] *)

Section Entries.

Context {A : Type}.

Lemma lookup_app (k : jsstring) (ps qs : list (jsstring * A)) :
  lookup k (ps ++ qs)
  = match lookup k ps with
    | Some a => Some a
    | None => lookup k qs
    end.
Proof.
  induction ps as [|[k1 a1] ps IH]; simpl; [reflexivity|].
  now destruct (str_eqb k1 k).
Qed.

Lemma str_eqb_trans_false (k1 k' k : jsstring) :
  str_eqb k1 k' = false -> str_eqb k1 k = true -> str_eqb k' k = false.
Proof.
  intros H1 H2. apply str_eqb_eq in H2. subst k1. apply str_eqb_neq.
  apply str_eqb_neq in H1. congruence.
Qed.

Lemma lookup_replace_property (k' k : jsstring) (a : A) ps :
  lookup k' ps <> None ->
  lookup k (replace_property k' a ps)
  = if str_eqb k' k then Some a else lookup k ps.
Proof.
  induction ps as [|[k1 a1] ps IH]; simpl; [congruence|].
  destruct (str_eqb k1 k') eqn:E1.
  - intros _. apply str_eqb_eq in E1. subst k1. simpl.
    now destruct (str_eqb k' k).
  - intros H. simpl. destruct (str_eqb k1 k) eqn:E2.
    + now rewrite (str_eqb_trans_false k1 k' k E1 E2).
    + now apply IH.
Qed.

Lemma lookup_insert_property (k' k : jsstring) (a : A) ps :
  lookup k' ps = None ->
  lookup k (insert_property k' a ps)
  = if str_eqb k' k then Some a else lookup k ps.
Proof.
  induction ps as [|[k1 a1] ps IH]; simpl; [reflexivity|].
  destruct (str_eqb k1 k') eqn:E1; [discriminate|]. intros H.
  destruct (comes_before k1 k'); simpl; [|reflexivity].
  destruct (str_eqb k1 k) eqn:E2.
  - now rewrite (str_eqb_trans_false k1 k' k E1 E2).
  - now apply IH.
Qed.

Lemma lookup_define_property (k' k : jsstring) (a : A) ps :
  lookup k (define_property k' a ps)
  = if str_eqb k' k then Some a else lookup k ps.
Proof.
  unfold define_property. destruct (lookup k' ps) eqn:E.
  - apply lookup_replace_property. congruence.
  - now apply lookup_insert_property.
Qed.

Lemma lookup_fold_define (k : jsstring) (es : list (jsstring * A)) :
  forall acc,
    lookup k (fold_left (fun ps '(k, a) => define_property k a ps) es acc)
    = match lookup k (rev es) with
      | Some a => Some a
      | None => lookup k acc
      end.
Proof.
  induction es as [|[k1 a1] es IH]; intros acc; cbn [fold_left rev];
    [reflexivity|].
  rewrite IH, lookup_app, lookup_define_property. cbn [lookup].
  destruct (lookup k (rev es)); [reflexivity|].
  now destruct (str_eqb k1 k).
Qed.

Lemma lookup_fromEntries (k : jsstring) (es : list (jsstring * A)) :
  lookup k (fromEntries es) = lookup k (rev es).
Proof.
  unfold fromEntries. rewrite lookup_fold_define.
  now destruct (lookup k (rev es)).
Qed.

Context {B : Type} (f : A -> B).

Lemma lookup_map (k : jsstring) (ps : list (jsstring * A)) :
  lookup k (map (fun '(k, a) => (k, f a)) ps) = option_map f (lookup k ps).
Proof.
  induction ps as [|[k1 a1] ps IH]; simpl; [reflexivity|].
  now destruct (str_eqb k1 k).
Qed.

Lemma replace_property_map (k : jsstring) (a : A) ps :
  replace_property k (f a) (map (fun '(k, a) => (k, f a)) ps)
  = map (fun '(k, a) => (k, f a)) (replace_property k a ps).
Proof.
  induction ps as [|[k1 a1] ps IH]; simpl; [reflexivity|].
  destruct (str_eqb k1 k); simpl; [reflexivity | now f_equal].
Qed.

Lemma insert_property_map (k : jsstring) (a : A) ps :
  insert_property k (f a) (map (fun '(k, a) => (k, f a)) ps)
  = map (fun '(k, a) => (k, f a)) (insert_property k a ps).
Proof.
  induction ps as [|[k1 a1] ps IH]; simpl; [reflexivity|].
  destruct (comes_before k1 k); simpl; [now f_equal | reflexivity].
Qed.

Lemma define_property_map (k : jsstring) (a : A) ps :
  define_property k (f a) (map (fun '(k, a) => (k, f a)) ps)
  = map (fun '(k, a) => (k, f a)) (define_property k a ps).
Proof.
  unfold define_property. rewrite lookup_map.
  destruct (lookup k ps); simpl;
    [apply replace_property_map | apply insert_property_map].
Qed.

Lemma fromEntries_map (es : list (jsstring * A)) :
  fromEntries (map (fun '(k, a) => (k, f a)) es)
  = map (fun '(k, a) => (k, f a)) (fromEntries es).
Proof.
  unfold fromEntries.
  change (@nil (jsstring * B)) with (map (fun '(k, a) => (k, f a)) (@nil (jsstring * A))) at 1.
  generalize (@nil (jsstring * A)).
  induction es as [|[k1 a1] es IH]; intros acc; cbn [fold_left map];
    [reflexivity|].
  rewrite define_property_map. apply IH.
Qed.

End Entries.

Lemma fold_define_any_sorted (es : list (jsstring * value)) :
  forall acc, StronglySorted key_order acc ->
    StronglySorted key_order
      (fold_left (fun ps '(k, a) => define_property k a ps) es acc).
Proof.
  induction es as [|[k a] es IH]; intros acc H; cbn [fold_left];
    [exact H|].
  apply IH. now apply define_property_sorted.
Qed.

Lemma fromEntries_key_order (es : list (jsstring * value)) :
  StronglySorted key_order (fromEntries es).
Proof. apply fold_define_any_sorted. constructor. Qed.

Lemma key_order_NoDup (ps : list (jsstring * value)) :
  StronglySorted key_order ps -> NoDup (keys ps).
Proof.
  induction 1 as [|p ps Hs IH Hf]; simpl; constructor; [|exact IH].
  unfold keys. rewrite in_map_iff. intros (q & Eq & Hq).
  rewrite Forall_forall in Hf. destruct (Hf q Hq) as [Hne _]. congruence.
Qed.

(** ** Printing the value read back *)

Lemma number_to_string_unsigned_zero (x : number) :
  number_to_string (unsigned_zero x) = number_to_string x.
Proof.
  destruct x as [|neg|neg m e]; try reflexivity. unfold unsigned_zero.
  destruct (m =? 0) eqn:E; [|reflexivity].
  cbn [number_to_string]. now rewrite E.
Qed.

Lemma serialize_reparsed (v : value) :
  well_formed v ->
  forall gap indent, serialize gap indent (reparsed v) = serialize gap indent v.
Proof.
  induction v as [| |b|x|s|es IH|ps IH|b] using value_ind;
    intros Hwf gap indent; try reflexivity.
  - cbn [reparsed]. destruct x as [|neg|neg m e]; try reflexivity.
    cbn [is_finite serialize]. rewrite number_to_string_unsigned_zero.
    unfold unsigned_zero. now destruct (m =? 0).
  - apply well_formed_array in Hwf. cbn [reparsed serialize]. do 2 f_equal.
    rewrite map_map. apply map_ext_in. intros e He.
    rewrite Forall_forall in IH, Hwf. now rewrite (IH e He (Hwf e He)).
  - pose proof Hwf as Hwf'. apply well_formed_object in Hwf'.
    destruct Hwf' as [Hs Hf]. rewrite (reparsed_object ps Hs).
    cbn [serialize]. do 2 f_equal. clear Hs Hwf.
    induction ps as [|[k x] ps IHps]; [reflexivity|].
    inversion IH as [|? ? Hx Hps]; inversion Hf as [|? ? Wx Wps]; subst.
    cbn [map member fst snd] in *. rewrite (Hx Wx gap (indent ++ gap)).
    rewrite (IHps Hps Wps). reflexivity.
Qed.

Lemma JSON_stringify_reparsed (v : value) (space : nat) :
  well_formed v -> JSON_stringify (reparsed v) space = JSON_stringify v space.
Proof. intros H. now apply serialize_reparsed. Qed.

(** ** The envelope as a value *)


(** ** Paths *)



Lemma split_nonempty (sep : code_unit) (s : jsstring) : split sep s <> [].
Proof.
  destruct s as [|c s]; cbn [split]; [discriminate|].
  destruct (c =? sep)%N; [discriminate|]. now destruct (split sep s).
Qed.

Lemma join_split (sep : code_unit) (s : jsstring) :
  join [sep] (split sep s) = s.
Proof.
  induction s as [|c s IH]; [reflexivity|]. cbn [split].
  destruct (c =? sep)%N eqn:E.
  - apply N.eqb_eq in E. subst c.
    pose proof (split_nonempty sep s) as Hne.
    destruct (split sep s) as [|p ps]; [congruence|].
    change (join [sep] ([] :: p :: ps)) with ([] ++ [sep] ++ join [sep] (p :: ps)).
    now rewrite IH.
  - pose proof (split_nonempty sep s) as Hne.
    destruct (split sep s) as [|p ps]; [congruence|].
    rewrite <- IH. now destruct ps.
Qed.

(** ** The handlers *)

Lemma result_text_is_JSON (host : Host) (v : value) :
  well_formed v -> (forall s, v <> VString s) ->
  (forall x, v = VNumber x -> is_finite x = true) ->
  result_text host v = JSON_stringify v 2.
Proof.
  intros Hwf Hs Hx. destruct v as [| |b|x|s|es|ps|b]; try contradiction;
    try reflexivity.
  - unfold result_text, JSON_stringify. cbn. now rewrite (Hx x eq_refl).
  - now destruct (Hs s).
Qed.

Section Further.

Variable host : Host.

Lemma parse_json_tool_own_path (json path : jsstring) (data v : value) :
  JSON_parse json = Some data -> path <> [] ->
  own_path data (split 46%N path) = Some v ->
  parse_json_tool host json (Some path) = Normal (success (result_text host v)).
Proof.
  intros Hp Hne Ho. rewrite (parse_json_tool_parsed host json (Some path) data Hp).
  unfold extract. destruct path as [|c path]; [congruence|].
  cbn [truthy path_text]. now rewrite (traverse_own host _ _ _ Ho).
Qed.

(** X1.  A path whose segments name, one after the other, members of the
    document itself (a key of an object, an index or the length of an
    array or a string) selects that member, whatever the prototypes of the
    host hold: the handler returns a success with the text of the member,
    and the text is a string. *)
Theorem X1_member_path_selects_member (json path : jsstring) (data v : value) :
  JSON_parse json = Some data -> path <> [] ->
  own_path data (split 46%N path) = Some v ->
  parse_json_tool host json (Some path) = Normal (success (result_text host v))
  /\ exists t, result_text host v = Some t.
Proof.
  intros Hp Hne Ho.
  split; [exact (parse_json_tool_own_path json path data v Hp Hne Ho)|].
  apply result_text_defined.
Qed.

(** X2.  An element of an array is its own property under the decimal
    form of its index, and indexing past the end finds no own property;
    [length] is the number of elements; a string has its code units and
    its length in the same way. *)
Theorem X2_index_selects_element (es : list value) (s : jsstring) (i : nat) :
  (N.of_nat i < 4294967295)%N ->
  own_property (VArray es) (decimal (N.of_nat i)) = nth_error es i
  /\ (forall e, nth_error es i = Some e ->
        Get host (VArray es) (decimal (N.of_nat i)) = Normal e)
  /\ Get host (VArray es) (js "length")
     = Normal (VNumber (number_of_Z (Z.of_nat (length es))))
  /\ own_property (VString s) (decimal (N.of_nat i))
     = option_map (fun c => VString [c]) (nth_error s i)
  /\ Get host (VString s) (js "length")
     = Normal (VNumber (number_of_Z (Z.of_nat (length s)))).
Proof.
  intros Hi. split; [now apply own_property_index|].
  split; [|split; [reflexivity | split; [now apply own_property_code_unit | reflexivity]]].
  intros e He. apply Get_own. now rewrite own_property_index.
Qed.

(** X3.  Formatting is idempotent: when a document that is not a string
    nor a number out of range is formatted without a path, giving the
    output to the handler again returns the same text. *)
Theorem X3_formatting_is_idempotent (json : jsstring) (data : value) :
  JSON_parse json = Some data ->
  (forall s, data <> VString s) ->
  (forall x, data = VNumber x -> is_finite x = true) ->
  exists t,
    parse_json_tool host json None = Normal (success (Some t))
    /\ parse_json_tool host t None = Normal (success (Some t)).
Proof.
  intros Hp Hs Hx. pose proof (JSON_parse_well_formed json data Hp) as Hwf.
  destruct (parse_stringify data 2 Hwf) as (t & E1 & E2).
  exists t. split.
  - rewrite (parse_json_tool_parsed host json None data Hp). cbn [extract truthy].
    now rewrite (result_text_is_JSON host data Hwf Hs Hx), E1.
  - rewrite (parse_json_tool_parsed host t None _ E2). cbn [extract truthy].
    rewrite result_text_is_JSON.
    + now rewrite (JSON_stringify_reparsed data 2 Hwf), E1.
    + now apply (JSON_parse_well_formed t).
    + intros s. destruct data as [| |b|x|s'|es|ps|b]; cbn [reparsed];
        try discriminate; [now destruct (is_finite x) | now destruct (Hs s')].
    + intros y. destruct data as [| |b|x|s'|es|ps|b]; cbn [reparsed];
        try discriminate.
      pose proof (Hx x eq_refl) as Hfin. rewrite Hfin. intros [= <-].
      destruct x as [|neg|neg m e]; try discriminate Hfin.
      unfold unsigned_zero. now destruct (m =? 0).
Qed.

Variable fetch : jsstring -> RequestInit.t -> completion Response.t.



(** X5.  The [headers] of the envelope hold each name once, with the
    value of the last entry of that name among the entries of the
    response. *)
Theorem X5_headers_last_entry_wins
  (response : Response.t) (responseText : option jsstring) (name : jsstring) :
  lookup name (CurlResponse.headers (envelope response responseText))
  = lookup name (rev (Response.headers response))
  /\ NoDup (map fst (CurlResponse.headers (envelope response responseText))).
Proof.
  cbn [envelope CurlResponse.headers]. split; [apply lookup_fromEntries|].
  pose proof (fromEntries_key_order
                (map (fun '(k, v) => (k, VString v)) (Response.headers response)))
    as H.
  rewrite (fromEntries_map VString) in H. apply key_order_NoDup in H.
  unfold keys in H. rewrite map_map in H.
  erewrite map_ext; [exact H|]. now intros [k v].
Qed.

(** X6.  With a method other than GET, a body that came as JSON and is
    not a string is sent as a text that parses back to it: to the value
    itself up to the sign of a zero when all its numbers are finite. *)
Theorem X6_request_body_reads_back (req : CurlRequest.t) (source : jsstring) :
  CurlRequest.method req <> GET ->
  JSON_parse source = Some (CurlRequest.body req) ->
  (forall s, CurlRequest.body req <> VString s) ->
  exists sent,
    RequestInit.body (snd (outbound req)) = Some sent
    /\ JSON_parse sent = Some (reparsed (CurlRequest.body req))
    /\ (all_finite (CurlRequest.body req) = true ->
        deep_equal (reparsed (CurlRequest.body req)) (CurlRequest.body req)
        = true).
Proof.
  intros Hm Hp Hs.
  destruct (parse_stringify_parsed source _ 0 Hp) as (sent & E1 & E2 & E3).
  exists sent. split; [|split; assumption].
  apply JSON_parse_well_formed in Hp.
  unfold outbound, options. cbn [snd RequestInit.body].
  destruct req as [u m h b tm]. cbn [CurlRequest.method CurlRequest.body] in *.
  assert (E : is_GET m = false) by (destruct m; try reflexivity; congruence).
  rewrite E. destruct b; try contradiction; try exact E1.
  now destruct (Hs s).
Qed.

(** X7.  The handler logs the line "Making <method> request to <url>"
    first; it logs a second line exactly when it returns a failure, and
    that line is the text of the failure. *)
Theorem X7_log_lines (req : CurlRequest.t) :
  exists result,
    snd (curl_tool host fetch req) = Normal result
    /\ fst (curl_tool host fetch req)
       = (js "Making " ++ method_name (CurlRequest.method req)
          ++ js " request to " ++ CurlRequest.url req)
         :: (if isError result
             then match text result with
                  | Some message => [message]
                  | None => []
                  end
             else []).
Proof.
  unfold curl_tool.
  destruct (fetch _ _) as [response | error]; cbn [bind].
  - unfold respond. destruct (read_body host response) as [rt | error];
      cbn [bind]; eexists; split; reflexivity.
  - eexists. split; reflexivity.
Qed.

(** X8.  The text of every result of the two handlers is a string: on
    no input is it [undefined]. *)
Theorem X8_text_is_a_string :
  (forall json path,
     exists result t,
       parse_json_tool host json path = Normal result /\ text result = Some t)
  /\ (forall req,
        exists result t,
          snd (curl_tool host fetch req) = Normal result
          /\ text result = Some t).
Proof.
  split.
  - intros json path. unfold parse_json_tool, JSON_parse_or_throw.
    destruct (JSON_parse json) as [data|]; cbn [bind try_catch].
    + destruct (extract host data path) as [v | e]; cbn [try_catch].
      * destruct (result_text_defined host v) as (t & Et).
        exists (success (result_text host v)), t. now split.
      * eexists. eexists. split; reflexivity.
    + eexists. eexists. split; reflexivity.
  - intros req. unfold curl_tool.
    destruct (fetch _ _) as [response | error]; cbn [bind].
    + unfold respond. destruct (read_body host response) as [rt | error];
        cbn [bind]; eexists; eexists; split; reflexivity.
    + eexists. eexists. split; reflexivity.
Qed.

End Further.

(** X9.  The segments of a path: joined with dots they give the path
    back, none of them holds a dot, and there is one more of them than
    there are dots in the path. *)
Theorem X9_path_segments (path : jsstring) :
  join [46%N] (split 46%N path) = path
  /\ Forall (fun part => ~ In 46%N part) (split 46%N path)
  /\ length (split 46%N path) = S (count_occ N.eq_dec path 46%N).
Proof.
  split; [apply join_split|]. split.
  - induction path as [|c path IH]; cbn [split];
      [constructor; [tauto | constructor]|].
    destruct (N.eqb_spec c 46) as [-> | Hc].
    + constructor; [tauto | exact IH].
    + pose proof (split_nonempty 46%N path) as Hne.
      destruct (split 46%N path) as [|p ps]; [congruence|].
      inversion IH; subst. constructor; [|assumption].
      intros [-> | H]; [congruence | contradiction].
  - induction path as [|c path IH]; [reflexivity|]. cbn [split count_occ].
    destruct (N.eqb_spec c 46) as [-> | Hc].
    + destruct (N.eq_dec 46 46); [|congruence]. cbn [length]. now rewrite IH.
    + destruct (N.eq_dec c 46); [congruence|].
      pose proof (split_nonempty 46%N path) as Hne.
      destruct (split 46%N path) as [|p ps]; [congruence|]. exact IH.
Qed.

Section Traversal.

Variable host : Host.

Lemma traverse_nullish (v : value) (parts : list jsstring) :
  is_nullish v = true -> traverse host v parts = Normal v.
Proof.
  intros H. destruct parts; cbn [traverse]; [reflexivity | now rewrite H].
Qed.

Lemma traverse_app (before : list jsstring) :
  forall v after,
    traverse host v (before ++ after)
    = (x <- traverse host v before ;; traverse host x after).
Proof.
  induction before as [|part before IH]; intros v after; cbn [app traverse];
    [reflexivity|].
  destruct (is_nullish v) eqn:Hv; cbn [bind].
  - symmetry. now apply traverse_nullish.
  - destruct (Get host v part) as [next | e]; cbn [bind]; [apply IH | reflexivity].
Qed.

(** X10.  Traversal composes: following a path is following its first
    segments and then, from the value reached, the remaining ones; what
    the first part throws is what the whole throws. *)
Theorem X10_traversal_composes (v : value) (before after : list jsstring) :
  traverse host v (before ++ after)
  = (x <- traverse host v before ;; traverse host x after)
  /\ (forall e, traverse host v before = Throw e ->
        traverse host v (before ++ after) = Throw e).
Proof.
  split; [apply traverse_app|]. intros e H. now rewrite traverse_app, H.
Qed.

Lemma extract_split (data : value) (path : jsstring)
  (before after : list jsstring) (v : value) :
  path <> [] -> split 46%N path = before ++ after ->
  own_path data before = Some v ->
  extract host data (Some path) = traverse host v after.
Proof.
  intros Hne Hs Ho. unfold extract. destruct path as [|c path]; [congruence|].
  cbn [truthy path_text]. rewrite Hs, traverse_app.
  now rewrite (traverse_own host _ _ _ Ho).
Qed.

(** X11.  A path that reaches a member of the document that is [null]
    stops there: whatever segments follow, the handler returns a success
    with the text [null]. *)
Theorem X11_path_through_null (json path : jsstring) (data : value)
  (before after : list jsstring) :
  JSON_parse json = Some data -> path <> [] ->
  split 46%N path = before ++ after ->
  own_path data before = Some VNull ->
  parse_json_tool host json (Some path) = Normal (success (Some (js "null"))).
Proof.
  intros Hp Hne Hs Ho.
  rewrite (parse_json_tool_parsed host json (Some path) data Hp).
  rewrite (extract_split data path before after VNull Hne Hs Ho).
  now rewrite traverse_nullish.
Qed.

(** X12.  A segment that names neither a member of the value reached nor
    a property of an intrinsic object ends the traversal without error:
    whatever segments follow, the handler returns a success with the text
    [undefined]. *)
Theorem X12_missing_member (json path : jsstring) (data v : value)
  (before after : list jsstring) (key : jsstring) :
  JSON_parse json = Some data -> path <> [] ->
  split 46%N path = before ++ key :: after ->
  own_path data before = Some v ->
  is_nullish v = false -> own_property v key = None ->
  (forall o, intrinsic_property host o key = None) ->
  parse_json_tool host json (Some path)
  = Normal (success (Some (js "undefined"))).
Proof.
  intros Hp Hne Hs Ho Hv Hk Hn.
  rewrite (parse_json_tool_parsed host json (Some path) data Hp).
  rewrite (extract_split data path before (key :: after) v Hne Hs Ho).
  cbn [traverse]. rewrite Hv. unfold Get. rewrite Hv, Hk.
  rewrite (chain_get_absent host 3 v key Hn). cbn [bind].
  now rewrite traverse_nullish.
Qed.

End Traversal.

(** X13.  The members of an object that [JSON.parse] builds, and so the
    members that the handlers print, have pairwise distinct keys, and
    each is enumerated before those that follow it: array indices first,
    in ascending order, then the other keys. *)
Theorem X13_parsed_object_keys (json : jsstring)
  (ps : list (jsstring * value)) :
  JSON_parse json = Some (VObject ps) ->
  NoDup (keys ps)
  /\ StronglySorted (fun p q => comes_before (fst p) (fst q) = true) ps.
Proof.
  intros H. apply JSON_parse_well_formed, well_formed_object in H.
  destruct H as [Hs _]. split; [now apply key_order_NoDup|].
  induction Hs as [|p ps Hs IH Hf]; constructor; [exact IH|].
  eapply Forall_impl; [|exact Hf]. now intros q [_ Hq].
Qed.

(** ** The further properties at concrete inputs *)

Lemma X1_witness :
  parse_json_tool example_host sample_text (Some (js "a.b"))
  = Normal (success (result_text example_host (VNumber (number_of_Z 42)))).
Proof.
  refine (proj1 (X1_member_path_selects_member example_host sample_text
                   (js "a.b") sample_value (VNumber (number_of_Z 42)) _ _ _));
    [vm_compute; reflexivity | discriminate | vm_compute; reflexivity].
Defined.

Lemma X2_witness :
  own_property (VArray [VNull; VBool true]) (decimal (N.of_nat 1))
  = nth_error [VNull; VBool true] 1.
Proof.
  refine (proj1 (X2_index_selects_element example_host [VNull; VBool true]
                   (js "ab") 1 _)).
  vm_compute. reflexivity.
Defined.

Lemma X3_witness :
  exists t,
    parse_json_tool example_host sample_text None = Normal (success (Some t))
    /\ parse_json_tool example_host t None = Normal (success (Some t)).
Proof.
  apply (X3_formatting_is_idempotent example_host sample_text sample_value);
    [vm_compute; reflexivity | discriminate | discriminate].
Defined.


Lemma X6_witness :
  exists sent,
    RequestInit.body (snd (outbound (plain_request POST sample_value)))
    = Some sent
    /\ JSON_parse sent = Some (reparsed sample_value).
Proof.
  destruct (X6_request_body_reads_back (plain_request POST sample_value)
              sample_text ltac:(discriminate) ltac:(vm_compute; reflexivity)
              ltac:(discriminate))
    as (sent & H1 & H2 & _).
  exists sent. split; [exact H1 | exact H2].
Defined.

Lemma X11_witness :
  parse_json_tool example_host (json_text "{'a':null}") (Some (js "a.b.c"))
  = Normal (success (Some (js "null"))).
Proof.
  apply (X11_path_through_null example_host (json_text "{'a':null}")
           (js "a.b.c") (VObject [(js "a", VNull)]) [js "a"] [js "b"; js "c"]);
    [vm_compute; reflexivity | discriminate | vm_compute; reflexivity
    | vm_compute; reflexivity].
Defined.

Lemma X12_witness :
  parse_json_tool example_host sample_text (Some (js "a.x"))
  = Normal (success (Some (js "undefined"))).
Proof.
  apply (X12_missing_member example_host sample_text (js "a.x") sample_value
           (VObject [(js "b", VNumber (number_of_Z 42))]) [js "a"] [] (js "x"));
    [vm_compute; reflexivity | discriminate | vm_compute; reflexivity
    | vm_compute; reflexivity | reflexivity | vm_compute; reflexivity |].
  intros o. destruct o; reflexivity.
Defined.

Lemma X13_witness :
  NoDup (keys [(js "1", VNull); (js "b", VNull)]).
Proof.
  refine (proj1 (X13_parsed_object_keys (json_text "{'b':null,'1':null}")
                   [(js "1", VNull); (js "b", VNull)] _)).
  vm_compute. reflexivity.
Defined.
